(** * Company deduplication for HubSpot Operations Hub: model and properties

    A shallow embedding of [company_dedup.js] (the final version of the
    custom-code action) and the properties of its duplicate resolution and
    merge direction.

    The remote CRM is an interface with four operations, each of which may
    change the remote store and fulfils or rejects.  A promise is a function
    on the world of one invocation: the remote store, the remote calls issued
    so far with their outcome, the payloads handed to [callback], and the
    rejections nobody handled.  [exports.main] and its handlers are written
    with [then_], [catch_] and [detached], the last for a chain whose promise
    the script drops.

    Conventions of the model.
    - A JavaScript identifier is a number or a string ([JsVal]); numbers are
      integers of the range in which IEEE doubles are exact, carried by [Z].
    - [Number] applied to a string reads an unsigned decimal numeral (the
      empty string is 0, as in JavaScript), exactly; any other string reads
      as NaN, written [None].  Signs, fractions, exponents, radix prefixes,
      surrounding white space and the rounding of doubles above 2^53 are
      outside the model, and so is the place [Array.prototype.sort] gives to
      [undefined] and to elements that compare as NaN.
    - The model of [Number] and of the sort is JavaScript's on safe
      identifiers ([safe_id]): non-negative integers up to 2^53 - 1, as
      numbers or as strings of decimal digits.  Every property that depends
      on the value of [Number] or on the order of the sort is stated for
      safe identifiers.
    - Property values of a company are strings or absent.
    - Console output is not modelled.

    The file has the model first (the final script, then in module [V3] the
    version it replaced), then the vocabulary of the statements, then the
    properties, and last concrete invocations on a scripted remote. *)

From stdpp Require Import base decidable option list numbers strings gmap pretty.
From Stdlib Require Import ZArith Lia Ascii Permutation Sorted.

Local Open Scope string_scope.
Local Open Scope list_scope.
Local Open Scope Z_scope.

(** ** JavaScript values used as identifiers and output fields *)

Inductive JsVal : Type :=
| JUndefined
| JNum (n : Z)
| JStr (s : string).

#[global] Instance JsVal_eq_dec : EqDecision JsVal.
Proof. solve_decision. Defined.

(** [a === b] on numbers and strings. *)
Definition strict_eq (a b : JsVal) : bool := bool_decide (a = b).

Definition digit_of_ascii (c : ascii) : option Z :=
  let n := Z.of_N (N_of_ascii c) in
  if (48 <=? n) && (n <=? 57) then Some (n - 48) else None.

Fixpoint parse_digits (acc : Z) (s : string) : option Z :=
  match s with
  | EmptyString => Some acc
  | String c rest =>
      match digit_of_ascii c with
      | Some d => parse_digits (10 * acc + d) rest
      | None => None
      end
  end.

(** [Number(v)]; [None] stands for NaN.  Exact, as JavaScript is up to
    2^53 - 1. *)
Definition Number (v : JsVal) : option Z :=
  match v with
  | JUndefined => None
  | JNum n => Some n
  | JStr s => parse_digits 0 s
  end.

(** [x !== y] on the results of [Number]: NaN differs from everything. *)
Definition num_strict_neq (x y : option Z) : bool :=
  match x, y with
  | Some a, Some b => negb (a =? b)
  | _, _ => true
  end.

(** [x - y] on the results of [Number]. *)
Definition num_sub (x y : option Z) : option Z :=
  match x, y with
  | Some a, Some b => Some (a - b)
  | _, _ => None
  end.

(** ** Configuration constants *)

Definition DEDUPE_PROPERTY : string := "name".

Definition SECONDARY_PROPERTIES : list string :=
  ["domain"; "linkedin_company_page"; "sales_navigator_url"].

Definition LOGGING_PROPERTIES : list string :=
  ["country"; "city"; "phone"; "address"].

Definition DEDUPLICATION_STATUS_PROPERTY : string := "deduplication_status".

Definition ALL_PROPERTIES : list string :=
  DEDUPE_PROPERTY :: SECONDARY_PROPERTIES ++ LOGGING_PROPERTIES
    ++ [DEDUPLICATION_STATUS_PROPERTY].

(** ** Duplicate resolver: the pure part of the search handler *)

Module SearchObject.
Record t : Type := Build { id : JsVal }.
End SearchObject.

(** [searchResults.results.map(object => object.id)
      .filter(id => Number(id) !== Number(event.object.objectId))] *)
Definition matchingIds (objectId : JsVal) (results : list SearchObject.t)
  : list JsVal :=
  List.filter (fun i => num_strict_neq (Number i) (Number objectId))
              (List.map SearchObject.id results).

(** [Set.prototype.add]: a value already present keeps its place. *)
Definition set_add (seen : list JsVal) (x : JsVal) : list JsVal :=
  if bool_decide (x ∈ seen) then seen else seen ++ [x].

(** [[...new Set(l)]]: insertion order, first occurrences. *)
Definition spread_Set (l : list JsVal) : list JsVal :=
  fold_left set_add l [].

Definition uniqueIds (objectId : JsVal) (results : list SearchObject.t)
  : list JsVal :=
  spread_Set (matchingIds objectId results).

(** The comparator [(a, b) => Number(a) - Number(b)]. *)
Definition compareFn (a b : JsVal) : option Z :=
  num_sub (Number a) (Number b).

(** [Array.prototype.sort] reads a NaN from the comparator as +0. *)
Definition sort_order (a b : JsVal) : Z :=
  match compareFn a b with
  | Some v => v
  | None => 0
  end.

(** [Array.prototype.sort(compareFn)] is a stable sort; for a consistent
    comparator its result does not depend on the algorithm, here a stable
    insertion sort.  The comparator is consistent on identifiers that read
    as numbers; JavaScript puts [undefined] last without calling it. *)
Fixpoint sort_insert (x : JsVal) (l : list JsVal) : list JsVal :=
  match l with
  | [] => [x]
  | y :: l' =>
      if sort_order x y <=? 0 then x :: y :: l' else y :: sort_insert x l'
  end.

Definition array_sort (l : list JsVal) : list JsVal :=
  fold_right sort_insert [] l.

(** [const allCompanyIds = [...uniqueIds, event.object.objectId];
     allCompanyIds.sort(...)] *)
Definition allCompanyIds (objectId : JsVal) (results : list SearchObject.t)
  : list JsVal :=
  array_sort (uniqueIds objectId results ++ [objectId]).

(** [allCompanyIds[0]]; the array holds at least [objectId]. *)
Definition primaryId (objectId : JsVal) (results : list SearchObject.t)
  : JsVal :=
  match allCompanyIds objectId results with
  | p :: _ => p
  | [] => objectId
  end.

(** ** Match-query builder *)

(** A property value as the CRM returns it: a string, or nothing. *)
Definition truthy (v : option string) : bool :=
  match v with
  | Some s => negb (bool_decide (s = ""))
  | None => false
  end.

Record Filter : Type := {
  propertyName : string;
  operator : string;
  value : option string
}.

Record FilterGroup : Type := { filters : list Filter }.

Record Company : Type := { properties : gmap string string }.

#[global] Instance Filter_eq_dec : EqDecision Filter.
Proof. solve_decision. Defined.

#[global] Instance FilterGroup_eq_dec : EqDecision FilterGroup.
Proof. solve_decision. Defined.

(** The loop over [SECONDARY_PROPERTIES] that pushes one filter per property
    with a truthy value. *)
Definition push_secondary (companyResult : Company)
    (secondaryFilters : list Filter) (prop : string) : list Filter :=
  let propValue := properties companyResult !! prop in
  if truthy propValue
  then secondaryFilters
         ++ [{| propertyName := prop; operator := "EQ"; value := propValue |}]
  else secondaryFilters.

(** The body of [secondaryFilters.forEach]. *)
Definition push_group (nameFilter : Filter)
    (filterGroups : list FilterGroup) (secondaryFilter : Filter)
  : list FilterGroup :=
  filterGroups ++ [{| filters := [nameFilter; secondaryFilter] |}].

(** Step 3 of [exports.main]: the value of [filterGroups] after the block. *)
Definition buildFilterGroups (companyResult : Company) : list FilterGroup :=
  let dedupePropValue := properties companyResult !! DEDUPE_PROPERTY in
  if truthy dedupePropValue then
    let nameFilter :=
      {| propertyName := DEDUPE_PROPERTY; operator := "EQ";
         value := dedupePropValue |} in
    let secondaryFilters :=
      fold_left (push_secondary companyResult) SECONDARY_PROPERTIES [] in
    if (0 <? length secondaryFilters)%nat
    then fold_left (push_group nameFilter) secondaryFilters []
    else [{| filters := [nameFilter] |}]
  else [].

(** ** The remote CRM and the world of one invocation *)

Record JsError : Type := { message : string }.

Record SearchRequest : Type := {
  filterGroups : list FilterGroup;
  limit : Z;
  sorts : list string
}.

Record SearchResults : Type := { results : list SearchObject.t }.

Record MergeBody : Type := {
  primaryObjectId : JsVal;
  objectIdToMerge : JsVal
}.

Record ApiRequestOptions : Type := {
  method : string;
  path : string;
  body : MergeBody
}.

Record UpdateInput : Type := { update_properties : gmap string string }.

(** The four operations of the client that the script uses.  Each one may
    change the remote store and either fulfils or rejects. *)
Record Client (Store : Type) : Type := {
  getById : JsVal -> list string -> Store -> Store * (JsError + Company);
  doSearch : SearchRequest -> Store -> Store * (JsError + SearchResults);
  update : JsVal -> UpdateInput -> Store -> Store * (JsError + unit);
  apiRequest : ApiRequestOptions -> Store -> Store * (JsError + unit)
}.

Arguments getById {Store}.
Arguments doSearch {Store}.
Arguments update {Store}.
Arguments apiRequest {Store}.

Inductive Request : Type :=
| ReqGetById (companyId : JsVal) (props : list string)
| ReqDoSearch (req : SearchRequest)
| ReqUpdate (companyId : JsVal) (input : UpdateInput)
| ReqApiRequest (opts : ApiRequestOptions).

(** A remote call together with the error it was rejected with, if any. *)
Record Call : Type := { request : Request; failure : option JsError }.

Record World (Store : Type) : Type := {
  store : Store;
  calls : list Call;
  outputs : list (gmap string JsVal);
  unhandled : list JsError
}.

Arguments store {Store}.
Arguments calls {Store}.
Arguments outputs {Store}.
Arguments unhandled {Store}.

Definition failure_of {A : Type} (r : JsError + A) : option JsError :=
  match r with
  | inl e => Some e
  | inr _ => None
  end.

(** The part of the event the script reads: [event.object.objectId]. *)
Record Event : Type := { objectId : JsVal }.

(** ** Promises, run to completion in the order the event loop runs them *)

Section Pipeline.
Context {Store : Type}.

Definition Promise (A : Type) : Type :=
  World Store -> World Store * (JsError + A).

Definition resolve {A : Type} (a : A) : Promise A :=
  fun w => (w, inr a).

(** [throw error] inside a handler. *)
Definition throw {A : Type} (e : JsError) : Promise A :=
  fun w => (w, inl e).

Definition then_ {A B : Type} (p : Promise A) (f : A -> Promise B)
  : Promise B :=
  fun w =>
    match p w with
    | (w', inr a) => f a w'
    | (w', inl e) => (w', inl e)
    end.

Definition catch_ {A : Type} (p : Promise A) (h : JsError -> Promise A)
  : Promise A :=
  fun w =>
    match p w with
    | (w', inr a) => (w', inr a)
    | (w', inl e) => h e w'
    end.

(** A promise chain that is started and whose promise is dropped: the
    surrounding code goes on, a rejection stays unhandled. *)
Definition detached {A : Type} (p : Promise A) : Promise unit :=
  fun w =>
    match p w with
    | (w', inr _) => (w', inr tt)
    | (w', inl e) =>
        ({| store := store w'; calls := calls w'; outputs := outputs w';
            unhandled := unhandled w' ++ [e] |}, inr tt)
    end.

(** Issue one remote call and record it. *)
Definition remote {A : Type} (req : Request)
    (op : Store -> Store * (JsError + A)) : Promise A :=
  fun w =>
    let '(s', r) := op (store w) in
    ({| store := s';
        calls := calls w ++ [{| request := req; failure := failure_of r |}];
        outputs := outputs w; unhandled := unhandled w |}, r).

(** [callback({ outputFields })] *)
Definition callback (outputFields : gmap string JsVal) : Promise unit :=
  fun w =>
    ({| store := store w; calls := calls w;
        outputs := outputs w ++ [outputFields];
        unhandled := unhandled w |}, inr tt).

Context (hubspotClient : Client Store).

Definition markAsPrimary (companyId : JsVal)
    (callback : option (gmap string JsVal -> Promise unit)) : Promise unit :=
  let input :=
    {| update_properties := {[ DEDUPLICATION_STATUS_PROPERTY := "primary" ]} |} in
  then_ (remote (ReqUpdate companyId input)
                (update hubspotClient companyId input))
    (fun response =>
       match callback with
       | Some cb =>
           then_ (cb (<[ "result" := JStr "Marked as primary" ]>
                      (<[ "primaryCompanyId" := companyId ]> ∅)))
                 (fun _ => resolve response)
       | None => resolve response
       end).

Definition markAsMerged (companyId : JsVal) : Promise unit :=
  let input :=
    {| update_properties := {[ DEDUPLICATION_STATUS_PROPERTY := "merged" ]} |} in
  then_ (remote (ReqUpdate companyId input)
                (update hubspotClient companyId input))
    (fun response => resolve response).

Definition mergeCompanies (primaryId mergeId : JsVal) : Promise unit :=
  let opts :=
    {| method := "POST"; path := "/crm/v3/objects/companies/merge";
       body := {| primaryObjectId := primaryId;
                  objectIdToMerge := mergeId |} |} in
  then_ (remote (ReqApiRequest opts) (apiRequest hubspotClient opts))
    (fun response => resolve response).

(** Step 7, first branch: the current company is the primary. *)
Definition mergeDuplicateIntoCurrent (event : Event) (uniqueIds : list JsVal)
  : Promise unit :=
  if (0 <? length uniqueIds)%nat then
    let duplicateToMerge := nth 0 uniqueIds JUndefined in
    detached
      (catch_
         (then_
            (then_
               (then_ (markAsMerged duplicateToMerge)
                  (fun _ => mergeCompanies (objectId event) duplicateToMerge))
               (fun _ => markAsPrimary (objectId event) None))
            (fun _ =>
               callback
                 (<[ "result" :=
                       JStr "Successfully merged duplicate into this company" ]>
                  (<[ "primaryCompanyId" := objectId event ]>
                   (<[ "mergedCompanyId" := duplicateToMerge ]>
                    (<[ "remainingDuplicates" :=
                          JNum (Z.of_nat (length uniqueIds) - 1) ]> ∅))))))
         (fun error => throw error))
  else detached (markAsPrimary (objectId event) (Some callback)).

(** Step 7, second branch: the current company is merged into the primary. *)
Definition mergeCurrentIntoPrimary (event : Event) (primaryId : JsVal)
  : Promise unit :=
  detached
    (catch_
       (then_
          (then_
             (then_ (markAsMerged (objectId event))
                (fun _ => mergeCompanies primaryId (objectId event)))
             (fun _ => markAsPrimary primaryId None))
          (fun _ =>
             callback
               (<[ "result" := JStr "Successfully merged into primary company" ]>
                (<[ "primaryCompanyId" := primaryId ]>
                 (<[ "mergedCompanyId" := objectId event ]> ∅)))))
       (fun error => throw error)).

(** The handler of the search results (steps 4 to 7). *)
Definition onSearchResults (event : Event) (searchResults : SearchResults)
  : Promise unit :=
  let uniqueIds := uniqueIds (objectId event) (results searchResults) in
  if (length uniqueIds =? 0)%nat then
    detached (markAsPrimary (objectId event) (Some callback))
  else
    let primaryId := primaryId (objectId event) (results searchResults) in
    if strict_eq primaryId (objectId event)
    then mergeDuplicateIntoCurrent event uniqueIds
    else mergeCurrentIntoPrimary event primaryId.

(** The handler of the fetched company (steps 1 to 4). *)
Definition onCompanyResult (event : Event) (companyResult : Company)
  : Promise unit :=
  let deduplicationStatus :=
    properties companyResult !! DEDUPLICATION_STATUS_PROPERTY in
  if bool_decide (deduplicationStatus = Some "merged") then
    callback
      (<[ "result" := JStr "Already merged into another company" ]>
       (<[ "companyId" := objectId event ]> ∅))
  else
    let filterGroups := buildFilterGroups companyResult in
    if (length filterGroups =? 0)%nat then
      detached (markAsPrimary (objectId event) (Some callback))
    else
      let req := {| filterGroups := filterGroups; limit := 100;
                    sorts := ["id"] |} in
      detached
        (catch_
           (then_ (remote (ReqDoSearch req) (doSearch hubspotClient req))
              (onSearchResults event))
           (fun error => throw error)).

(** [exports.main]: the promise chain is started and dropped. *)
Definition main (event : Event) : Promise unit :=
  detached
    (catch_
       (then_ (remote (ReqGetById (objectId event) ALL_PROPERTIES)
                      (getById hubspotClient (objectId event) ALL_PROPERTIES))
          (onCompanyResult event))
       (fun error => throw error)).

(** The chain that both branches of step 7 run, on different records; the
    proofs treat the two branches through it. *)
Definition absorb (primaryId mergeId : JsVal) (out : gmap string JsVal)
  : Promise unit :=
  detached
    (catch_
       (then_
          (then_
             (then_ (markAsMerged mergeId)
                (fun _ => mergeCompanies primaryId mergeId))
             (fun _ => markAsPrimary primaryId None))
          (fun _ => callback out))
       (fun error => throw error)).

(** The world as one invocation starts, and as it ends. *)
Definition start (s : Store) : World Store :=
  {| store := s; calls := []; outputs := []; unhandled := [] |}.

Definition run (event : Event) (s : Store) : World Store :=
  fst (main event (start s)).
End Pipeline.

(** ** A scripted remote, for concrete runs *)

Record Script : Type := {
  company : JsError + Company;
  found : JsError + SearchResults;
  updateResult : JsVal -> JsError + unit;
  mergeResult : JsError + unit
}.

Definition scripted (sc : Script) : Client unit :=
  {| getById := fun _ _ s => (s, company sc);
     doSearch := fun _ s => (s, found sc);
     update := fun i _ s => (s, updateResult sc i);
     apiRequest := fun _ s => (s, mergeResult sc) |}.

Definition company_of (l : list (string * string)) : Company :=
  {| properties := list_to_map l |}.

Definition results_of (ids : list JsVal) : SearchResults :=
  {| results := List.map SearchObject.Build ids |}.

(** ** What the specification says, for comparison with the code *)

(** The equality filter on one property of the fetched company. *)
Definition eq_filter (companyResult : Company) (prop : string) : Filter :=
  {| propertyName := prop; operator := "EQ";
     value := properties companyResult !! prop |}.

(** The secondary attributes that have a non-empty value. *)
Definition present_secondary (companyResult : Company) : list string :=
  List.filter (fun prop => truthy (properties companyResult !! prop))
              SECONDARY_PROPERTIES.

(** Section 4.2 of the specification: one alternative per secondary attribute
    with a value, each the identifying filter together with that attribute's
    filter; the identifying filter alone when there is none. *)
Definition spec_query (companyResult : Company) : list FilterGroup :=
  match present_secondary companyResult with
  | [] => [{| filters := [eq_filter companyResult DEDUPE_PROPERTY] |}]
  | present =>
      List.map
        (fun prop =>
           {| filters := [eq_filter companyResult DEDUPE_PROPERTY;
                          eq_filter companyResult prop] |})
        present
  end.

(** ** Vocabulary of the statements *)

(** Numeric order on identifiers; it holds of numeric identifiers only. *)
Definition num_le (a b : JsVal) : Prop :=
  match Number a, Number b with
  | Some x, Some y => x <= y
  | _, _ => False
  end.

(** The record a request writes to. *)
Definition mutates (r : Request) (i : JsVal) : Prop :=
  match r with
  | ReqUpdate companyId _ => companyId = i
  | ReqApiRequest opts =>
      primaryObjectId (body opts) = i \/ objectIdToMerge (body opts) = i
  | _ => False
  end.

Definition numeric (v : JsVal) : Prop := is_Some (Number v).

Definition results_numeric (rs : list SearchObject.t) : Prop :=
  Forall (fun o => numeric (SearchObject.id o)) rs.

(** [Number.MAX_SAFE_INTEGER], 2^53 - 1. *)
Definition MAX_SAFE_INTEGER : Z := 9007199254740991.

(** The identifiers on which the model of [Number] is JavaScript's: a
    number that is a non-negative safe integer, or a string of decimal
    digits whose value is one.  There [Number] is exact, no comparison is
    made with NaN or with undefined, and the differences the comparator
    computes are exact too. *)
Definition safe_id (v : JsVal) : Prop :=
  match Number v with
  | Some n => 0 <= n <= MAX_SAFE_INTEGER
  | None => False
  end.

Definition results_safe (rs : list SearchObject.t) : Prop :=
  Forall (fun o => safe_id (SearchObject.id o)) rs.

(** The input of a status update. *)
Definition status_update (status : string) : UpdateInput :=
  {| update_properties := {[ DEDUPLICATION_STATUS_PROPERTY := status ]} |}.

Definition merge_request (primaryId mergeId : JsVal) : Request :=
  ReqApiRequest
    {| method := "POST"; path := "/crm/v3/objects/companies/merge";
       body := {| primaryObjectId := primaryId;
                  objectIdToMerge := mergeId |} |}.

Definition search_request (c : Company) : SearchRequest :=
  {| filterGroups := buildFilterGroups c; limit := 100; sorts := ["id"] |}.

Definition get_request (event : Event) : Request :=
  ReqGetById (objectId event) ALL_PROPERTIES.

Definition ok (r : Request) : Call := {| request := r; failure := None |}.

Definition failed (r : Request) (e : JsError) : Call :=
  {| request := r; failure := Some e |}.

Definition out_already_merged (event : Event) : gmap string JsVal :=
  <[ "result" := JStr "Already merged into another company" ]>
    (<[ "companyId" := objectId event ]> ∅).

Definition out_marked_primary (companyId : JsVal) : gmap string JsVal :=
  <[ "result" := JStr "Marked as primary" ]>
    (<[ "primaryCompanyId" := companyId ]> ∅).

Definition out_merged_duplicate (event : Event) (duplicateToMerge : JsVal)
    (remaining : Z) : gmap string JsVal :=
  <[ "result" := JStr "Successfully merged duplicate into this company" ]>
    (<[ "primaryCompanyId" := objectId event ]>
       (<[ "mergedCompanyId" := duplicateToMerge ]>
          (<[ "remainingDuplicates" := JNum remaining ]> ∅))).

Definition out_merged_into_primary (event : Event) (primaryId : JsVal)
  : gmap string JsVal :=
  <[ "result" := JStr "Successfully merged into primary company" ]>
    (<[ "primaryCompanyId" := primaryId ]>
       (<[ "mergedCompanyId" := objectId event ]> ∅)).

Definition result_field (o : gmap string JsVal) : option JsVal :=
  o !! "result".

Definition succeeded (c : Call) : Prop := failure c = None.

Definition no_error_field (o : gmap string JsVal) : Prop :=
  o !! "error" = None.

(** The calls and payloads of the merging part of the script. *)
Record covers_merging (Pc : Call -> Prop) (Po : gmap string JsVal -> Prop)
    (event : Event) : Prop := {
  covers_primary : forall i f,
    Pc {| request := ReqUpdate i (status_update "primary"); failure := f |};
  covers_merged : forall i f,
    Pc {| request := ReqUpdate i (status_update "merged"); failure := f |};
  covers_merge : forall p m f,
    Pc {| request := merge_request p m; failure := f |};
  covers_out_marked : forall i, Po (out_marked_primary i);
  covers_out_duplicate : forall d n, Po (out_merged_duplicate event d n);
  covers_out_primary : forall p, Po (out_merged_into_primary event p)
}.

(** ** Concrete remotes and records *)

Definition acme : Company :=
  company_of [("name", "Acme"); ("domain", "acme.com")].

Definition acme_merged : Company :=
  company_of [("name", "Acme"); ("deduplication_status", "merged")].

Definition nameless : Company := company_of [("domain", "acme.com")].

Definition nameless_merged : Company :=
  company_of [("deduplication_status", "merged")].

Definition permission_denied : JsError := {| message := "Permission denied" |}.

(** A remote on which every operation succeeds. *)
Definition remote_ok (c : Company) (ids : list JsVal) : Script :=
  {| company := inr c; found := inr (results_of ids);
     updateResult := fun _ => inr tt; mergeResult := inr tt |}.

(** A remote that rejects every update. *)
Definition remote_update_denied (c : Company) (ids : list JsVal) : Script :=
  {| company := inr c; found := inr (results_of ids);
     updateResult := fun _ => inl permission_denied; mergeResult := inr tt |}.

(** A remote that rejects the merge request. *)
Definition remote_merge_denied (c : Company) (ids : list JsVal) : Script :=
  {| company := inr c; found := inr (results_of ids);
     updateResult := fun _ => inr tt; mergeResult := inl permission_denied |}.

(** ** The previous version of the script (version 3)

    The version that the final script replaced.  It fetches fewer
    properties, searches on the identifying property alone, writes no status
    and reports every failure through the callback. *)

Module V3.

Definition DEDUPE_PROPERTY : string := "name".

Definition SECONDARY_PROPERTIES : list string := ["domain"; "phone"; "address"].

(** The search request of this version has filter groups only. *)
Record SearchRequest : Type := { filterGroups : list FilterGroup }.

(** The three operations of the client that this version uses. *)
Record Client (Store : Type) : Type := {
  getById : JsVal -> list string -> Store -> Store * (JsError + Company);
  doSearch : SearchRequest -> Store -> Store * (JsError + SearchResults);
  apiRequest : ApiRequestOptions -> Store -> Store * (JsError + unit)
}.

Arguments getById {Store}.
Arguments doSearch {Store}.
Arguments apiRequest {Store}.

Inductive Request : Type :=
| ReqGetById (companyId : JsVal) (props : list string)
| ReqDoSearch (req : SearchRequest)
| ReqApiRequest (opts : ApiRequestOptions).

Record Call : Type := { request : Request; failure : option JsError }.

Record World (Store : Type) : Type := {
  store : Store;
  calls : list Call;
  outputs : list (gmap string JsVal);
  unhandled : list JsError
}.

Arguments store {Store}.
Arguments calls {Store}.
Arguments outputs {Store}.
Arguments unhandled {Store}.

(** [ToString] as [Array.prototype.join] applies it to an element: the
    empty string for undefined, the decimal numeral for an integer. *)
Definition join_item (v : JsVal) : string :=
  match v with
  | JUndefined => ""
  | JNum n => pretty n
  | JStr s => s
  end.

(** [l.join(sep)] *)
Fixpoint join (sep : string) (l : list JsVal) : string :=
  match l with
  | [] => ""
  | x :: rest =>
      match rest with
      | [] => join_item x
      | _ :: _ => join_item x +:+ sep +:+ join sep rest
      end
  end.

Section Script.
Context {Store : Type}.

Definition Promise (A : Type) : Type :=
  World Store -> World Store * (JsError + A).

Definition then_ {A B : Type} (p : Promise A) (f : A -> Promise B)
  : Promise B :=
  fun w =>
    match p w with
    | (w', inr a) => f a w'
    | (w', inl e) => (w', inl e)
    end.

Definition catch_ {A : Type} (p : Promise A) (h : JsError -> Promise A)
  : Promise A :=
  fun w =>
    match p w with
    | (w', inr a) => (w', inr a)
    | (w', inl e) => h e w'
    end.

(** A promise chain that is started and whose promise is dropped. *)
Definition detached {A : Type} (p : Promise A) : Promise unit :=
  fun w =>
    match p w with
    | (w', inr _) => (w', inr tt)
    | (w', inl e) =>
        ({| store := store w'; calls := calls w'; outputs := outputs w';
            unhandled := unhandled w' ++ [e] |}, inr tt)
    end.

(** Issue one remote call and record it. *)
Definition remote {A : Type} (req : Request)
    (op : Store -> Store * (JsError + A)) : Promise A :=
  fun w =>
    let '(s', r) := op (store w) in
    ({| store := s';
        calls := calls w ++ [{| request := req; failure := failure_of r |}];
        outputs := outputs w; unhandled := unhandled w |}, r).

(** [callback({ outputFields })] *)
Definition callback (outputFields : gmap string JsVal) : Promise unit :=
  fun w =>
    ({| store := store w; calls := calls w;
        outputs := outputs w ++ [outputFields];
        unhandled := unhandled w |}, inr tt).

Context (hubspotClient : Client Store).

(** The four [catch] handlers of this version are the same function. *)
Definition reportError (error : JsError) : Promise unit :=
  callback
    (<[ "result" := JStr "Error" ]>
       (<[ "error" := JStr (message error) ]> ∅)).

(** The handler of the search results. *)
Definition onSearchResults (event : Event) (searchResults : SearchResults)
  : Promise unit :=
  let idsToMerge := matchingIds (objectId event) (results searchResults) in
  if (length idsToMerge =? 0)%nat then
    callback (<[ "result" := JStr "No duplicates found" ]> ∅)
  else if (1 <? length idsToMerge)%nat then
    let idsToMerge := array_sort idsToMerge in
    let primaryId := nth 0 idsToMerge JUndefined in
    let opts :=
      {| method := "POST"; path := "/crm/v3/objects/companies/merge";
         body := {| primaryObjectId := primaryId;
                    objectIdToMerge := objectId event |} |} in
    detached
      (catch_
         (then_ (remote (ReqApiRequest opts) (apiRequest hubspotClient opts))
            (fun _ =>
               callback
                 (<[ "result" := JStr "Multiple matches resolved" ]>
                    (<[ "primaryCompanyId" := primaryId ]>
                       (<[ "mergedCompanyIds" :=
                             JStr (join ", " idsToMerge) ]> ∅)))))
         reportError)
  else
    let idToMerge := nth 0 idsToMerge JUndefined in
    let opts :=
      {| method := "POST"; path := "/crm/v3/objects/companies/merge";
         body := {| primaryObjectId := idToMerge;
                    objectIdToMerge := objectId event |} |} in
    detached
      (catch_
         (then_ (remote (ReqApiRequest opts) (apiRequest hubspotClient opts))
            (fun _ =>
               callback
                 (<[ "result" := JStr "Success" ]>
                    (<[ "mergedIntoCompanyId" := idToMerge ]> ∅))))
         reportError).

(** The handler of the fetched company. *)
Definition onCompanyResult (event : Event) (companyResult : Company)
  : Promise unit :=
  let dedupePropValue := properties companyResult !! DEDUPE_PROPERTY in
  let req :=
    {| filterGroups :=
         [{| filters := [{| propertyName := DEDUPE_PROPERTY;
                            operator := "EQ";
                            value := dedupePropValue |}] |}] |} in
  detached
    (catch_
       (then_ (remote (ReqDoSearch req) (doSearch hubspotClient req))
          (onSearchResults event))
       reportError).

(** [exports.main] of this version. *)
Definition main (event : Event) : Promise unit :=
  let propertiesToFetch := DEDUPE_PROPERTY :: SECONDARY_PROPERTIES in
  detached
    (catch_
       (then_ (remote (ReqGetById (objectId event) propertiesToFetch)
                      (getById hubspotClient (objectId event)
                         propertiesToFetch))
          (onCompanyResult event))
       reportError).

Definition start (s : Store) : World Store :=
  {| store := s; calls := []; outputs := []; unhandled := [] |}.

Definition run (event : Event) (s : Store) : World Store :=
  fst (main event (start s)).
End Script.

(** *** Vocabulary *)

Definition get_request (event : Event) : Request :=
  ReqGetById (objectId event) (DEDUPE_PROPERTY :: SECONDARY_PROPERTIES).

Definition search_request (c : Company) : SearchRequest :=
  {| filterGroups := [{| filters := [eq_filter c DEDUPE_PROPERTY] |}] |}.

Definition merge_request (primaryId mergeId : JsVal) : Request :=
  ReqApiRequest
    {| method := "POST"; path := "/crm/v3/objects/companies/merge";
       body := {| primaryObjectId := primaryId;
                  objectIdToMerge := mergeId |} |}.

Definition ok (r : Request) : Call := {| request := r; failure := None |}.

Definition failed (r : Request) (e : JsError) : Call :=
  {| request := r; failure := Some e |}.

Definition out_error (e : JsError) : gmap string JsVal :=
  <[ "result" := JStr "Error" ]> (<[ "error" := JStr (message e) ]> ∅).

Definition out_no_duplicates : gmap string JsVal :=
  <[ "result" := JStr "No duplicates found" ]> ∅.

(** The payload of a successful merge, for the identifiers that matched. *)
Definition out_merged (ids : list JsVal) : gmap string JsVal :=
  if (1 <? length ids)%nat then
    <[ "result" := JStr "Multiple matches resolved" ]>
      (<[ "primaryCompanyId" := nth 0 (array_sort ids) JUndefined ]>
         (<[ "mergedCompanyIds" := JStr (join ", " (array_sort ids)) ]> ∅))
  else
    <[ "result" := JStr "Success" ]>
      (<[ "mergedIntoCompanyId" := nth 0 ids JUndefined ]> ∅).

(** The record the current one is merged into. *)
Definition merge_target (ids : list JsVal) : JsVal :=
  nth 0 (array_sort ids) JUndefined.

(** The ends of [exports.main] of this version. *)
Inductive run_end {Store : Type} (hubspotClient : Client Store)
    (event : Event) (s0 : Store) : World Store -> Prop :=
| end_fetch_rejected (s1 : Store) (e : JsError) :
    getById hubspotClient (objectId event)
      (DEDUPE_PROPERTY :: SECONDARY_PROPERTIES) s0 = (s1, inl e) ->
    run_end hubspotClient event s0
      {| store := s1; calls := [failed (get_request event) e];
         outputs := [out_error e]; unhandled := [] |}
| end_search_rejected (s1 s2 : Store) (c : Company) (e : JsError) :
    getById hubspotClient (objectId event)
      (DEDUPE_PROPERTY :: SECONDARY_PROPERTIES) s0 = (s1, inr c) ->
    doSearch hubspotClient (search_request c) s1 = (s2, inl e) ->
    run_end hubspotClient event s0
      {| store := s2;
         calls := [ok (get_request event);
                   failed (ReqDoSearch (search_request c)) e];
         outputs := [out_error e]; unhandled := [] |}
| end_no_duplicates (s1 s2 : Store) (c : Company) (sr : SearchResults) :
    getById hubspotClient (objectId event)
      (DEDUPE_PROPERTY :: SECONDARY_PROPERTIES) s0 = (s1, inr c) ->
    doSearch hubspotClient (search_request c) s1 = (s2, inr sr) ->
    matchingIds (objectId event) (results sr) = [] ->
    run_end hubspotClient event s0
      {| store := s2;
         calls := [ok (get_request event);
                   ok (ReqDoSearch (search_request c))];
         outputs := [out_no_duplicates]; unhandled := [] |}
| end_merge_rejected (s1 s2 s3 : Store) (c : Company) (sr : SearchResults)
    (e : JsError) :
    getById hubspotClient (objectId event)
      (DEDUPE_PROPERTY :: SECONDARY_PROPERTIES) s0 = (s1, inr c) ->
    doSearch hubspotClient (search_request c) s1 = (s2, inr sr) ->
    matchingIds (objectId event) (results sr) <> [] ->
    run_end hubspotClient event s0
      {| store := s3;
         calls := [ok (get_request event);
                   ok (ReqDoSearch (search_request c));
                   failed
                     (merge_request
                        (merge_target
                           (matchingIds (objectId event) (results sr)))
                        (objectId event)) e];
         outputs := [out_error e]; unhandled := [] |}
| end_merged (s1 s2 s3 : Store) (c : Company) (sr : SearchResults) :
    getById hubspotClient (objectId event)
      (DEDUPE_PROPERTY :: SECONDARY_PROPERTIES) s0 = (s1, inr c) ->
    doSearch hubspotClient (search_request c) s1 = (s2, inr sr) ->
    matchingIds (objectId event) (results sr) <> [] ->
    run_end hubspotClient event s0
      {| store := s3;
         calls := [ok (get_request event);
                   ok (ReqDoSearch (search_request c));
                   ok (merge_request
                         (merge_target
                            (matchingIds (objectId event) (results sr)))
                         (objectId event))];
         outputs := [out_merged (matchingIds (objectId event) (results sr))];
         unhandled := [] |}.

(** A scripted remote, for concrete runs. *)
Definition scripted (sc : Script) : Client unit :=
  {| getById := fun _ _ s => (s, company sc);
     doSearch := fun _ s => (s, found sc);
     apiRequest := fun _ s => (s, mergeResult sc) |}.

End V3.

Section Verification.
Context {Store : Type}.

Definition with_unhandled (w : World Store) (e : JsError) : World Store :=
  {| store := store w; calls := calls w; outputs := outputs w;
     unhandled := unhandled w ++ [e] |}.

Definition with_call (w : World Store) (s : Store) (c : Call) : World Store :=
  {| store := s; calls := calls w ++ [c]; outputs := outputs w;
     unhandled := unhandled w |}.

Definition with_output (w : World Store) (o : gmap string JsVal)
  : World Store :=
  {| store := store w; calls := calls w; outputs := outputs w ++ [o];
     unhandled := unhandled w |}.

(** From a world satisfying [P], the chain [p] ends in a world and a
    settlement related by [Q]. *)
Definition triple {A : Type} (P : World Store -> Prop) (p : Promise A)
    (Q : World Store -> JsError + A -> Prop) : Prop :=
  forall w w' r, P w -> p w = (w', r) -> Q w' r.

Definition trace_inv (Pc : Call -> Prop) (Po : gmap string JsVal -> Prop)
    (w : World Store) : Prop :=
  Forall Pc (calls w) /\ Forall Po (outputs w).

Definition keeps {A : Type} (I : World Store -> Prop) (p : Promise A)
  : Prop :=
  triple I p (fun w _ => I w).

(** An invariant that survives a call satisfying [Pc], a payload
    satisfying [Po] and an unhandled rejection. *)
Record stable (I : World Store -> Prop) (Pc : Call -> Prop)
    (Po : gmap string JsVal -> Prop) : Prop := {
  stable_call : forall w s c, Pc c -> I w -> I (with_call w s c);
  stable_output : forall w o, Po o -> I w -> I (with_output w o);
  stable_unhandled : forall w e, I w -> I (with_unhandled w e)
}.

(** Nothing has failed and nothing has been reported. *)
Definition Quiet (w : World Store) : Prop :=
  Forall succeeded (calls w) /\ outputs w = [] /\ unhandled w = [].

(** Nothing has failed; whatever was reported has no [error] field. *)
Definition Reported (w : World Store) : Prop :=
  Forall succeeded (calls w) /\ Forall no_error_field (outputs w)
  /\ unhandled w = [].

(** The last call was rejected with [e], the first to be, and nothing has
    been reported. *)
Definition failed_last (e : JsError) (w : World Store) : Prop :=
  exists cs c, calls w = cs ++ [c] /\ Forall succeeded cs
               /\ failure c = Some e /\ outputs w = [].

Definition Pending (e : JsError) (w : World Store) : Prop :=
  failed_last e w /\ unhandled w = [].

Definition Crashed (e : JsError) (w : World Store) : Prop :=
  failed_last e w /\ unhandled w = [e].

Definition Settled (w : World Store) : Prop :=
  Reported w \/ exists e, Crashed e w.

Definition step_post {A : Type} (w : World Store) (r : JsError + A) : Prop :=
  match r with
  | inr _ => Quiet w
  | inl e => Pending e w
  end.

Definition final_post {A : Type} (w : World Store) (r : JsError + A)
  : Prop :=
  match r with
  | inr _ => Settled w
  | inl e => Pending e w
  end.

(** ** The ends of an invocation *)

(** The world after a successful fetch, and after a successful search. *)
Definition fetched (event : Event) (s1 : Store) : World Store :=
  {| store := s1; calls := [ok (get_request event)]; outputs := [];
     unhandled := [] |}.

Definition searched (event : Event) (c : Company) (s2 : Store)
  : World Store :=
  {| store := s2;
     calls := [ok (get_request event); ok (ReqDoSearch (search_request c))];
     outputs := []; unhandled := [] |}.

(** The ends of [markAsPrimary] called with the callback and dropped. *)
Inductive mark_end (w0 : World Store) (i : JsVal) : World Store -> Prop :=
| mark_rejected (s : Store) (e : JsError) :
    mark_end w0 i
      (with_unhandled
         (with_call w0 s (failed (ReqUpdate i (status_update "primary")) e))
         e)
| mark_reported (s : Store) :
    mark_end w0 i
      (with_output
         (with_call w0 s (ok (ReqUpdate i (status_update "primary"))))
         (out_marked_primary i)).

(** The ends of the chain that marks [m] merged, merges it into [p] and marks
    [p] primary. *)
Inductive absorb_end (w0 : World Store) (p m : JsVal)
    (out : gmap string JsVal) : World Store -> Prop :=
| absorb_mark_fails (s1 : Store) (e : JsError) :
    absorb_end w0 p m out
      (with_unhandled
         (with_call w0 s1 (failed (ReqUpdate m (status_update "merged")) e))
         e)
| absorb_merge_fails (s1 s2 : Store) (e : JsError) :
    absorb_end w0 p m out
      (with_unhandled
         (with_call
            (with_call w0 s1 (ok (ReqUpdate m (status_update "merged"))))
            s2 (failed (merge_request p m) e))
         e)
| absorb_primary_fails (s1 s2 s3 : Store) (e : JsError) :
    absorb_end w0 p m out
      (with_unhandled
         (with_call
            (with_call
               (with_call w0 s1 (ok (ReqUpdate m (status_update "merged"))))
               s2 (ok (merge_request p m)))
            s3 (failed (ReqUpdate p (status_update "primary")) e))
         e)
| absorb_reported (s1 s2 s3 : Store) :
    absorb_end w0 p m out
      (with_output
         (with_call
            (with_call
               (with_call w0 s1 (ok (ReqUpdate m (status_update "merged"))))
               s2 (ok (merge_request p m)))
            s3 (ok (ReqUpdate p (status_update "primary"))))
         out).

(** The ends of [exports.main] started on the remote store [s0]. *)
Inductive run_end (hubspotClient : Client Store) (event : Event) (s0 : Store)
  : World Store -> Prop :=
| end_fetch_rejected (s1 : Store) (e : JsError) :
    getById hubspotClient (objectId event) ALL_PROPERTIES s0 = (s1, inl e) ->
    run_end hubspotClient event s0
      {| store := s1; calls := [failed (get_request event) e];
         outputs := []; unhandled := [e] |}
| end_already_merged (s1 : Store) (c : Company) :
    getById hubspotClient (objectId event) ALL_PROPERTIES s0 = (s1, inr c) ->
    properties c !! DEDUPLICATION_STATUS_PROPERTY = Some "merged" ->
    run_end hubspotClient event s0
      (with_output (fetched event s1) (out_already_merged event))
| end_no_query (s1 : Store) (c : Company) (w : World Store) :
    getById hubspotClient (objectId event) ALL_PROPERTIES s0 = (s1, inr c) ->
    properties c !! DEDUPLICATION_STATUS_PROPERTY <> Some "merged" ->
    truthy (properties c !! DEDUPE_PROPERTY) = false ->
    mark_end (fetched event s1) (objectId event) w ->
    run_end hubspotClient event s0 w
| end_search_rejected (s1 s2 : Store) (c : Company) (e : JsError) :
    getById hubspotClient (objectId event) ALL_PROPERTIES s0 = (s1, inr c) ->
    properties c !! DEDUPLICATION_STATUS_PROPERTY <> Some "merged" ->
    truthy (properties c !! DEDUPE_PROPERTY) = true ->
    doSearch hubspotClient (search_request c) s1 = (s2, inl e) ->
    run_end hubspotClient event s0
      (with_unhandled
         (with_call (fetched event s1) s2
            (failed (ReqDoSearch (search_request c)) e))
         e)
| end_no_duplicates (s1 s2 : Store) (c : Company) (sr : SearchResults)
    (w : World Store) :
    getById hubspotClient (objectId event) ALL_PROPERTIES s0 = (s1, inr c) ->
    properties c !! DEDUPLICATION_STATUS_PROPERTY <> Some "merged" ->
    truthy (properties c !! DEDUPE_PROPERTY) = true ->
    doSearch hubspotClient (search_request c) s1 = (s2, inr sr) ->
    uniqueIds (objectId event) (results sr) = [] ->
    mark_end (searched event c s2) (objectId event) w ->
    run_end hubspotClient event s0 w
| end_current_primary (s1 s2 : Store) (c : Company) (sr : SearchResults)
    (w : World Store) :
    getById hubspotClient (objectId event) ALL_PROPERTIES s0 = (s1, inr c) ->
    properties c !! DEDUPLICATION_STATUS_PROPERTY <> Some "merged" ->
    truthy (properties c !! DEDUPE_PROPERTY) = true ->
    doSearch hubspotClient (search_request c) s1 = (s2, inr sr) ->
    uniqueIds (objectId event) (results sr) <> [] ->
    primaryId (objectId event) (results sr) = objectId event ->
    absorb_end (searched event c s2) (objectId event)
      (nth 0 (uniqueIds (objectId event) (results sr)) JUndefined)
      (out_merged_duplicate event
         (nth 0 (uniqueIds (objectId event) (results sr)) JUndefined)
         (Z.of_nat (length (uniqueIds (objectId event) (results sr))) - 1))
      w ->
    run_end hubspotClient event s0 w
| end_other_primary (s1 s2 : Store) (c : Company) (sr : SearchResults)
    (w : World Store) :
    getById hubspotClient (objectId event) ALL_PROPERTIES s0 = (s1, inr c) ->
    properties c !! DEDUPLICATION_STATUS_PROPERTY <> Some "merged" ->
    truthy (properties c !! DEDUPE_PROPERTY) = true ->
    doSearch hubspotClient (search_request c) s1 = (s2, inr sr) ->
    primaryId (objectId event) (results sr) <> objectId event ->
    absorb_end (searched event c s2)
      (primaryId (objectId event) (results sr)) (objectId event)
      (out_merged_into_primary event
         (primaryId (objectId event) (results sr)))
      w ->
    run_end hubspotClient event s0 w.


(** Strict numeric order on identifiers. *)
Definition num_lt (a b : JsVal) : Prop :=
  match Number a, Number b with
  | Some x, Some y => x < y
  | _, _ => False
  end.

(** * Properties *)

(** ** The set built from the search results *)

Lemma set_add_fold_elem (l acc : list JsVal) (x : JsVal) :
  x ∈ fold_left set_add l acc <-> x ∈ acc \/ x ∈ l.
Proof.
  revert acc. induction l as [|y l IH]; intros acc; simpl.
  - rewrite elem_of_nil. tauto.
  - rewrite IH. unfold set_add. rewrite elem_of_cons.
    case_bool_decide as Hy.
    + split; [tauto|]. intros [?|[->|?]]; auto.
    + rewrite elem_of_app, list_elem_of_singleton. tauto.
Qed.

Lemma set_add_fold_NoDup (l acc : list JsVal) :
  NoDup acc -> NoDup (fold_left set_add l acc).
Proof.
  revert acc. induction l as [|y l IH]; intros acc Hacc; simpl; [done|].
  apply IH. unfold set_add. case_bool_decide as Hy; [done|].
  apply NoDup_app. split_and!; [done| |apply NoDup_singleton].
  intros z Hz Hz'. apply list_elem_of_singleton in Hz'. by subst.
Qed.

Lemma set_add_fold_prefix (l acc : list JsVal) :
  exists more, fold_left set_add l acc = acc ++ more.
Proof.
  revert acc. induction l as [|y l IH]; intros acc; simpl.
  - exists []. by rewrite app_nil_r.
  - destruct (IH (set_add acc y)) as [more ->]. unfold set_add.
    case_bool_decide; [by exists more|].
    exists (y :: more). by rewrite <- app_assoc.
Qed.

Lemma spread_Set_elem (l : list JsVal) (x : JsVal) :
  x ∈ spread_Set l <-> x ∈ l.
Proof.
  unfold spread_Set. rewrite set_add_fold_elem, elem_of_nil. tauto.
Qed.

Lemma spread_Set_NoDup (l : list JsVal) : NoDup (spread_Set l).
Proof. apply set_add_fold_NoDup, NoDup_nil_2. Qed.

(** The first element of the set is the first element of the array. *)
Lemma spread_Set_first (l : list JsVal) :
  nth 0 (spread_Set l) JUndefined = nth 0 l JUndefined.
Proof.
  destruct l as [|x l]; [done|]. unfold spread_Set. simpl.
  destruct (set_add_fold_prefix l (set_add [] x)) as [more ->]. done.
Qed.

Lemma matchingIds_elem (objectId : JsVal) (rs : list SearchObject.t) (i : JsVal) :
  i ∈ matchingIds objectId rs <->
  (exists o, o ∈ rs /\ SearchObject.id o = i)
  /\ num_strict_neq (Number i) (Number objectId) = true.
Proof.
  unfold matchingIds. rewrite list_elem_of_In, filter_In, <- list_elem_of_In.
  rewrite list_elem_of_fmap. split.
  - intros [(o & -> & Ho) Hn]. eauto.
  - intros [(o & Ho & <-) Hn]. eauto.
Qed.

Lemma uniqueIds_elem (objectId : JsVal) (rs : list SearchObject.t) (i : JsVal) :
  i ∈ uniqueIds objectId rs <->
  (exists o, o ∈ rs /\ SearchObject.id o = i)
  /\ num_strict_neq (Number i) (Number objectId) = true.
Proof. unfold uniqueIds. by rewrite spread_Set_elem, matchingIds_elem. Qed.

Lemma num_strict_neq_numeric (x : option Z) (n : Z) :
  num_strict_neq x (Some n) = true <-> x <> Some n.
Proof.
  destruct x as [m|]; simpl; [|split; [done|auto]].
  rewrite negb_true_iff, Z.eqb_neq. split; [congruence|].
  intros H ->. by apply H.
Qed.

(** ** The numeric sort *)

Lemma num_le_refl (a : JsVal) : numeric a -> num_le a a.
Proof. intros [x Hx]. unfold num_le. rewrite Hx. lia. Qed.

Lemma num_le_trans (a b c : JsVal) : num_le a b -> num_le b c -> num_le a c.
Proof.
  unfold num_le.
  destruct (Number a), (Number b), (Number c); try tauto. lia.
Qed.

Lemma num_le_antisym (a b : JsVal) :
  num_le a b -> num_le b a -> Number a = Number b.
Proof.
  unfold num_le. destruct (Number a), (Number b); try tauto.
  intros. f_equal. lia.
Qed.

Lemma sort_order_numeric (a b : JsVal) :
  numeric a -> numeric b ->
  if sort_order a b <=? 0 then num_le a b else num_le b a.
Proof.
  intros [x Hx] [y Hy]. unfold sort_order, compareFn, num_le.
  rewrite Hx, Hy. simpl.
  destruct (x - y <=? 0) eqn:E; [apply Z.leb_le in E|apply Z.leb_gt in E]; lia.
Qed.

Lemma sort_insert_Permutation (x : JsVal) (l : list JsVal) :
  sort_insert x l ≡ₚ x :: l.
Proof.
  induction l as [|y l IH]; simpl; [done|].
  destruct (sort_order x y <=? 0); [done|].
  rewrite IH. apply Permutation_swap.
Qed.

Lemma array_sort_Permutation (l : list JsVal) : array_sort l ≡ₚ l.
Proof.
  induction l as [|x l IH]; simpl; [done|].
  by rewrite sort_insert_Permutation, IH.
Qed.

Lemma sort_insert_sorted (x : JsVal) (l : list JsVal) :
  numeric x -> Forall numeric l ->
  StronglySorted num_le l -> StronglySorted num_le (sort_insert x l).
Proof.
  intros Hx Hl Hs. induction Hs as [|y l Hs IH Hy]; simpl.
  - repeat constructor.
  - apply Forall_cons in Hl as [Hny Hl].
    pose proof (sort_order_numeric x y Hx Hny) as Hxy.
    destruct (sort_order x y <=? 0).
    + constructor; [by constructor|].
      constructor; [done|].
      eapply Forall_impl; [exact Hy|]. intros z Hz. by eapply num_le_trans.
    + constructor; [by apply IH|].
      rewrite sort_insert_Permutation. by constructor.
Qed.

Lemma array_sort_sorted (l : list JsVal) :
  Forall numeric l -> StronglySorted num_le (array_sort l).
Proof.
  induction l as [|x l IH]; intros Hl; simpl; [constructor|].
  apply Forall_cons in Hl as [Hx Hl].
  apply sort_insert_sorted; [done| |by apply IH].
  by rewrite array_sort_Permutation.
Qed.

(** The first element of the sorted array is a numerically least element. *)
Lemma array_sort_first (l : list JsVal) (p : JsVal) (rest : list JsVal) :
  Forall numeric l -> array_sort l = p :: rest ->
  p ∈ l /\ forall i, i ∈ l -> num_le p i.
Proof.
  intros Hl Hp.
  pose proof (array_sort_sorted l Hl) as Hs.
  pose proof (array_sort_Permutation l) as Hperm.
  rewrite Hp in Hs, Hperm. split.
  - rewrite <- Hperm. apply list_elem_of_here.
  - intros i Hi. rewrite <- Hperm in Hi.
    apply StronglySorted_inv in Hs as [_ Hall].
    apply elem_of_cons in Hi as [->|Hi].
    + apply num_le_refl.
      assert (p ∈ l) as Hin by (rewrite <- Hperm; apply list_elem_of_here).
      by eapply Forall_forall in Hl.
    + by eapply Forall_forall in Hall.
Qed.

Lemma array_sort_nonempty (x : JsVal) (l : list JsVal) :
  exists p rest, array_sort (l ++ [x]) = p :: rest.
Proof.
  destruct (array_sort (l ++ [x])) as [|p rest] eqn:E; [|eauto].
  pose proof (array_sort_Permutation (l ++ [x])) as Hperm.
  rewrite E in Hperm. apply Permutation_nil_l in Hperm.
  by destruct l.
Qed.

Lemma num_lt_of_le (a b : JsVal) :
  num_le a b -> Number a <> Number b -> num_lt a b.
Proof.
  unfold num_le, num_lt. destruct (Number a), (Number b); try tauto.
  intros Hle Hne. assert (z <> z0) by congruence. lia.
Qed.

Lemma num_lt_not_le (a b : JsVal) : num_lt a b -> ~ num_le b a.
Proof.
  unfold num_le, num_lt. destruct (Number a), (Number b); try tauto. lia.
Qed.

(** A candidate of a numeric current record has another numeric value. *)
Lemma uniqueIds_differs (objectId : JsVal) (rs : list SearchObject.t)
    (i : JsVal) :
  numeric objectId -> i ∈ uniqueIds objectId rs ->
  Number i <> Number objectId.
Proof.
  intros [n Hn] Hi. apply uniqueIds_elem in Hi as [_ Hne].
  rewrite Hn in *. by apply num_strict_neq_numeric.
Qed.

(** A result kept by the filter reads as another number than the current
    identifier. *)
Lemma matchingIds_distinct (objectId : JsVal) (rs : list SearchObject.t)
    (i : JsVal) :
  numeric objectId -> results_numeric rs -> i ∈ matchingIds objectId rs ->
  exists x y, Number i = Some x /\ Number objectId = Some y /\ x <> y.
Proof.
  intros [n Hn] Hrs Hi.
  apply matchingIds_elem in Hi as [(o & Ho & <-) Hne].
  unfold results_numeric in Hrs. rewrite Forall_forall in Hrs.
  destruct (Hrs o Ho) as [k Hk].
  exists k, n. split; [done|]. split; [done|].
  rewrite Hn, Hk in Hne. apply num_strict_neq_numeric in Hne. congruence.
Qed.

Lemma uniqueIds_distinct (objectId : JsVal) (rs : list SearchObject.t)
    (i : JsVal) :
  numeric objectId -> results_numeric rs -> i ∈ uniqueIds objectId rs ->
  exists x y, Number i = Some x /\ Number objectId = Some y /\ x <> y.
Proof.
  intros Hcur Hrs Hi. unfold uniqueIds in Hi. rewrite spread_Set_elem in Hi.
  by apply (matchingIds_distinct _ rs).
Qed.

(** ** Safe identifiers *)

Lemma safe_id_numeric (v : JsVal) : safe_id v -> numeric v.
Proof. unfold safe_id, numeric. destruct (Number v); [by eexists|done]. Qed.

Lemma results_safe_numeric (rs : list SearchObject.t) :
  results_safe rs -> results_numeric rs.
Proof.
  intros H. eapply Forall_impl; [exact H|].
  intros o. apply safe_id_numeric.
Qed.

(** ** The primary identifier *)

Lemma uniqueIds_numeric (objectId : JsVal) (rs : list SearchObject.t) :
  results_numeric rs -> Forall numeric (uniqueIds objectId rs).
Proof.
  intros Hrs. apply Forall_forall. intros i Hi.
  apply uniqueIds_elem in Hi as [(o & Ho & <-) _].
  by eapply Forall_forall in Hrs.
Qed.

Lemma primaryId_spec (objectId : JsVal) (rs : list SearchObject.t) :
  numeric objectId -> results_numeric rs ->
  primaryId objectId rs ∈ uniqueIds objectId rs ++ [objectId]
  /\ forall i, i ∈ uniqueIds objectId rs ++ [objectId] ->
               num_le (primaryId objectId rs) i.
Proof.
  intros Hcur Hrs. unfold primaryId, allCompanyIds.
  destruct (array_sort_nonempty objectId (uniqueIds objectId rs))
    as (p & rest & E).
  rewrite E. eapply array_sort_first; [|exact E].
  apply Forall_app. split; [by apply uniqueIds_numeric|].
  by apply Forall_singleton.
Qed.

Lemma uniqueIds_Permutation_elem (objectId : JsVal)
    (rs rs' : list SearchObject.t) (i : JsVal) :
  rs ≡ₚ rs' -> i ∈ uniqueIds objectId rs <-> i ∈ uniqueIds objectId rs'.
Proof.
  intros Hp. rewrite !uniqueIds_elem.
  by setoid_rewrite Hp.
Qed.

(** The primary identifier is one of the identifiers that were sorted. *)
Lemma primaryId_elem (objectId : JsVal) (rs : list SearchObject.t) :
  primaryId objectId rs ∈ uniqueIds objectId rs ++ [objectId].
Proof.
  unfold primaryId, allCompanyIds.
  destruct (array_sort_nonempty objectId (uniqueIds objectId rs))
    as (p & rest & E).
  rewrite E. rewrite <- (array_sort_Permutation _), E.
  apply list_elem_of_here.
Qed.

(** Without duplicates the current company is the primary one. *)
Lemma primaryId_no_duplicates (objectId : JsVal) (rs : list SearchObject.t) :
  uniqueIds objectId rs = [] -> primaryId objectId rs = objectId.
Proof. intros H. unfold primaryId, allCompanyIds. by rewrite H. Qed.

(** C3.  With safe identifiers (non-negative integers up to 2^53 - 1, as
    numbers or as decimal digit strings), the primary identifier is a member
    of the candidate set joined with the current identifier, it is
    numerically least there ([num_le] compares the values of [Number], also
    for strings), and it does not depend on the order of the search results:
    its numeric value is the same for every ordering, and so is the
    identifier itself when distinct records have numerically distinct
    identifiers. *)
Theorem primaryId_numeric_minimum (objectId : JsVal) (rs : list SearchObject.t) :
  safe_id objectId -> results_safe rs ->
  (primaryId objectId rs ∈ uniqueIds objectId rs
   \/ primaryId objectId rs = objectId)
  /\ (forall i, i ∈ uniqueIds objectId rs \/ i = objectId ->
                num_le (primaryId objectId rs) i)
  /\ forall rs', rs ≡ₚ rs' ->
       Number (primaryId objectId rs') = Number (primaryId objectId rs)
       /\ ((forall a b, a ∈ rs -> b ∈ rs ->
              Number (SearchObject.id a) = Number (SearchObject.id b) ->
              SearchObject.id a = SearchObject.id b) ->
           primaryId objectId rs' = primaryId objectId rs).
Proof.
  intros Hcur%safe_id_numeric Hrs%results_safe_numeric.
  destruct (primaryId_spec objectId rs Hcur Hrs) as [Hin Hleast].
  assert (forall i, i ∈ uniqueIds objectId rs ++ [objectId] <->
                    i ∈ uniqueIds objectId rs \/ i = objectId) as Hmem.
  { intros i. by rewrite elem_of_app, list_elem_of_singleton. }
  split; [by apply Hmem|]. split; [intros i Hi; by apply Hleast, Hmem|].
  intros rs' Hperm.
  assert (results_numeric rs') as Hrs'.
  { unfold results_numeric. by rewrite <- Hperm. }
  destruct (primaryId_spec objectId rs' Hcur Hrs') as [Hin' Hleast'].
  assert (primaryId objectId rs' ∈ uniqueIds objectId rs ++ [objectId]) as Hin2.
  { apply elem_of_app in Hin' as [H|H]; apply elem_of_app; [left|by right].
    by eapply uniqueIds_Permutation_elem. }
  assert (primaryId objectId rs ∈ uniqueIds objectId rs' ++ [objectId]) as Hin3.
  { apply elem_of_app in Hin as [H|H]; apply elem_of_app; [left|by right].
    by eapply uniqueIds_Permutation_elem. }
  assert (Number (primaryId objectId rs') = Number (primaryId objectId rs))
    as Hnum by (apply num_le_antisym; auto).
  split; [done|]. intros Hinj.
  destruct Hcur as [n Hn].
  apply Hmem in Hin as [Hp|Hp]; apply Hmem in Hin2 as [Hp'|Hp'].
  - apply uniqueIds_elem in Hp as [(a & Ha & Ea) _].
    apply uniqueIds_elem in Hp' as [(b & Hb & Eb) _].
    rewrite <- Ea, <- Eb in *. symmetry. by apply Hinj.
  - apply uniqueIds_elem in Hp as [_ Hne].
    rewrite Hn in Hne. apply num_strict_neq_numeric in Hne.
    rewrite Hp', Hn in Hnum. by destruct Hne.
  - apply uniqueIds_elem in Hp' as [_ Hne].
    rewrite Hn in Hne. apply num_strict_neq_numeric in Hne.
    rewrite Hp, Hn in Hnum. by destruct Hne.
  - by rewrite Hp, Hp'.
Qed.

(** C9.  With safe identifiers (non-negative integers up to 2^53 - 1, as
    numbers or as decimal digit strings), the candidate set holds no
    identifier twice, holds neither the current identifier nor any
    identifier with the same numeric value (a string form of the same number
    included), and holds every other identifier of the search results. *)
Theorem uniqueIds_excludes_current (objectId : JsVal)
    (rs : list SearchObject.t) :
  safe_id objectId -> results_safe rs ->
  NoDup (uniqueIds objectId rs)
  /\ (objectId ∉ uniqueIds objectId rs)
  /\ (forall i, i ∈ uniqueIds objectId rs -> Number i <> Number objectId)
  /\ (forall o, o ∈ rs -> Number (SearchObject.id o) <> Number objectId ->
                SearchObject.id o ∈ uniqueIds objectId rs)
  /\ Forall safe_id (uniqueIds objectId rs).
Proof.
  intros [n Hn]%safe_id_numeric Hrs.
  assert (forall i, i ∈ uniqueIds objectId rs -> Number i <> Number objectId)
    as Hex.
  { intros i Hi. apply uniqueIds_elem in Hi as [_ Hne].
    rewrite Hn in *. by apply num_strict_neq_numeric. }
  split; [apply spread_Set_NoDup|]. split; [|split; [done|split]].
  - intros Hin. by apply Hex in Hin.
  - intros o Ho Hne. apply uniqueIds_elem. split; [eauto|].
    rewrite Hn in *. by apply num_strict_neq_numeric.
  - apply Forall_forall. intros i Hi.
    apply uniqueIds_elem in Hi as [(o & Ho & <-) _].
    by eapply Forall_forall in Hrs.
Qed.

(** ** The match query *)

Lemma push_secondary_fold (c : Company) (props : list string)
    (acc : list Filter) :
  fold_left (push_secondary c) props acc
  = acc ++ List.map (eq_filter c)
             (List.filter (fun prop => truthy (properties c !! prop)) props).
Proof.
  revert acc. induction props as [|prop props IH]; intros acc; simpl.
  - by rewrite app_nil_r.
  - rewrite IH. unfold push_secondary.
    destruct (truthy (properties c !! prop)); [|done].
    simpl. by rewrite <- app_assoc.
Qed.

Lemma push_group_fold (nameFilter : Filter) (fs : list Filter)
    (acc : list FilterGroup) :
  fold_left (push_group nameFilter) fs acc
  = acc ++ List.map (fun f => {| filters := [nameFilter; f] |}) fs.
Proof.
  revert acc. induction fs as [|f fs IH]; intros acc; simpl.
  - by rewrite app_nil_r.
  - rewrite IH. unfold push_group. by rewrite <- app_assoc.
Qed.

Lemma buildFilterGroups_no_value (c : Company) :
  truthy (properties c !! DEDUPE_PROPERTY) = false ->
  buildFilterGroups c = [].
Proof. intros H. unfold buildFilterGroups. by rewrite H. Qed.

Lemma buildFilterGroups_query (c : Company) :
  truthy (properties c !! DEDUPE_PROPERTY) = true ->
  buildFilterGroups c = spec_query c.
Proof.
  intros Hname. unfold buildFilterGroups, spec_query. rewrite Hname.
  rewrite push_secondary_fold, app_nil_l.
  fold (present_secondary c).
  destruct (present_secondary c) as [|prop present]; [done|].
  rewrite push_group_fold, app_nil_l.
  by rewrite List.map_map.
Qed.

Lemma buildFilterGroups_nonempty (c : Company) :
  truthy (properties c !! DEDUPE_PROPERTY) = true ->
  buildFilterGroups c <> [].
Proof.
  intros Hname. rewrite buildFilterGroups_query by done.
  unfold spec_query. by destruct (present_secondary c).
Qed.

(** C8.  For a company with an identifying value the query built by the code
    is the query of the specification: one group per secondary attribute
    with a value, each made of the identifying filter and that attribute's
    filter, and the identifying filter alone when no secondary attribute has
    a value. *)
Theorem buildFilterGroups_spec (c : Company) :
  truthy (properties c !! DEDUPE_PROPERTY) = true ->
  buildFilterGroups c = spec_query c
  /\ (present_secondary c <> [] ->
      length (buildFilterGroups c) = length (present_secondary c)
      /\ forall g, g ∈ buildFilterGroups c <->
           exists prop, prop ∈ present_secondary c
             /\ g = {| filters := [eq_filter c DEDUPE_PROPERTY;
                                   eq_filter c prop] |})
  /\ (present_secondary c = [] ->
      buildFilterGroups c
      = [{| filters := [eq_filter c DEDUPE_PROPERTY] |}]).
Proof.
  intros Hname.
  pose proof (buildFilterGroups_query c Hname) as Heq.
  split; [done|]. rewrite Heq. unfold spec_query. split.
  - intros Hne. destruct (present_secondary c) as [|prop present]; [done|].
    split; [by rewrite length_map|].
    intros g. rewrite list_elem_of_fmap. split.
    + intros (p & -> & Hp). eauto.
    + intros (p & Hp & ->). eauto.
  - by intros ->.
Qed.

(** ** Reasoning about promise chains *)

Section Triples.

Lemma triple_weaken {A : Type} (P P' : World Store -> Prop) (p : Promise A)
    (Q Q' : World Store -> JsError + A -> Prop) :
  triple P' p Q' -> (forall w, P w -> P' w) ->
  (forall w r, Q' w r -> Q w r) -> triple P p Q.
Proof. intros Hp HP HQ w w' r Hw E. eapply HQ, Hp; eauto. Qed.

Lemma triple_resolve {A : Type} (P : World Store -> Prop) (a : A) :
  triple P (resolve a) (fun w r => P w /\ r = inr a).
Proof. intros w w' r Hw E. injection E as <- <-. done. Qed.

Lemma triple_then {A B : Type} (P : World Store -> Prop) (p : Promise A)
    (f : A -> Promise B) (Q1 : World Store -> JsError + A -> Prop)
    (Q2 : World Store -> JsError + B -> Prop) :
  triple P p Q1 ->
  (forall a, triple (fun w => Q1 w (inr a)) (f a) Q2) ->
  (forall w e, Q1 w (inl e) -> Q2 w (inl e)) ->
  triple P (then_ p f) Q2.
Proof.
  intros Hp Hf He w w' r Hw E. unfold then_ in E.
  destruct (p w) as [w1 [e|a]] eqn:Ep.
  - injection E as <- <-. eapply He, Hp; eauto.
  - eapply Hf; [|exact E]. eapply Hp; eauto.
Qed.

(** A handler that only rethrows leaves the chain as it is. *)
Lemma catch_rethrow {A : Type} (p : Promise A) (w : World Store) :
  catch_ p (fun error => throw error) w = p w.
Proof. unfold catch_, throw. by destruct (p w) as [w' [e|a]]. Qed.

Lemma triple_catch_rethrow {A : Type} (P : World Store -> Prop)
    (p : Promise A) (Q : World Store -> JsError + A -> Prop) :
  triple P p Q -> triple P (catch_ p (fun error => throw error)) Q.
Proof. intros Hp w w' r Hw E. rewrite catch_rethrow in E. eauto. Qed.

Lemma triple_detached {A : Type} (P : World Store -> Prop) (p : Promise A)
    (Q : World Store -> JsError + A -> Prop)
    (R : World Store -> JsError + unit -> Prop) :
  triple P p Q ->
  (forall w a, Q w (inr a) -> R w (inr tt)) ->
  (forall w e, Q w (inl e) -> R (with_unhandled w e) (inr tt)) ->
  triple P (detached p) R.
Proof.
  intros Hp Hok Herr w w' r Hw E. unfold detached in E.
  destruct (p w) as [w1 [e|a]] eqn:Ep; injection E as <- <-.
  - eapply Herr, Hp; eauto.
  - eapply Hok, Hp; eauto.
Qed.

Lemma triple_remote {A : Type} (P : World Store -> Prop) (req : Request)
    (op : Store -> Store * (JsError + A))
    (Q : World Store -> JsError + A -> Prop) :
  (forall w s r, P w ->
     Q (with_call w s {| request := req; failure := failure_of r |}) r) ->
  triple P (remote req op) Q.
Proof.
  intros H w w' r Hw E. unfold remote in E.
  destruct (op (store w)) as [s r0]. injection E as <- <-. by apply H.
Qed.

Lemma triple_callback (P : World Store -> Prop) (o : gmap string JsVal)
    (Q : World Store -> JsError + unit -> Prop) :
  (forall w, P w -> Q (with_output w o) (inr tt)) ->
  triple P (callback o) Q.
Proof. intros H w w' r Hw E. injection E as <- <-. by apply H. Qed.

(** *** Invariants of the calls issued and the payloads reported *)

Lemma keeps_resolve {A : Type} (I : World Store -> Prop) (a : A) :
  keeps I (resolve a).
Proof. intros w w' r Hw E. by injection E as <- <-. Qed.

Lemma keeps_then {A B : Type} (I : World Store -> Prop) (p : Promise A)
    (f : A -> Promise B) :
  keeps I p -> (forall a, keeps I (f a)) -> keeps I (then_ p f).
Proof.
  intros Hp Hf. eapply triple_then; [exact Hp| |done].
  intros a. exact (Hf a).
Qed.

Lemma keeps_catch_rethrow {A : Type} (I : World Store -> Prop)
    (p : Promise A) :
  keeps I p -> keeps I (catch_ p (fun error => throw error)).
Proof. apply triple_catch_rethrow. Qed.

Lemma trace_inv_stable (Pc : Call -> Prop) (Po : gmap string JsVal -> Prop) :
  stable (trace_inv Pc Po) Pc Po.
Proof.
  split.
  - intros w s c Hc [Hcs Hos]. split; [|done].
    simpl. apply Forall_app. split; [done|]. by apply Forall_singleton.
  - intros w o Ho [Hcs Hos]. split; [done|].
    simpl. apply Forall_app. split; [done|]. by apply Forall_singleton.
  - by intros w e [Hcs Hos].
Qed.

(** The calls issued so far stay where they are. *)
Lemma prefix_stable (pre : list Call) :
  stable (fun w : World Store => pre `prefix_of` calls w)
    (fun _ => True) (fun _ => True).
Proof.
  split; [|done|done].
  intros w s c _ Hpre. simpl. by apply prefix_app_r.
Qed.

Section Keeps.
Context (I : World Store -> Prop) (Pc : Call -> Prop)
        (Po : gmap string JsVal -> Prop) (HI : stable I Pc Po).

Lemma keeps_detached {A : Type} (p : Promise A) :
  keeps I p -> keeps I (detached p).
Proof.
  intros Hp. eapply triple_detached; [exact Hp|done|].
  intros w e Hw. by apply (stable_unhandled _ _ _ HI).
Qed.

Lemma keeps_remote {A : Type} (req : Request)
    (op : Store -> Store * (JsError + A)) :
  (forall f, Pc {| request := req; failure := f |}) ->
  keeps I (remote req op).
Proof.
  intros H. apply triple_remote. intros w s r Hw.
  by apply (stable_call _ _ _ HI).
Qed.

Lemma keeps_callback (o : gmap string JsVal) :
  Po o -> keeps I (callback o).
Proof.
  intros H. apply triple_callback. intros w Hw.
  by apply (stable_output _ _ _ HI).
Qed.
End Keeps.
End Triples.

(** ** Running the pipeline step by step *)

Section Runs.
Context (hubspotClient : Client Store).

Lemma remote_run {A : Type} (req : Request)
    (op : Store -> Store * (JsError + A)) (w : World Store) (s : Store)
    (r : JsError + A) :
  op (store w) = (s, r) ->
  remote req op w
  = (with_call w s {| request := req; failure := failure_of r |}, r).
Proof. intros H. unfold remote. by rewrite H. Qed.

Lemma then_run {A B : Type} (p : Promise A) (f : A -> Promise B)
    (w w' : World Store) (a : A) :
  p w = (w', inr a) -> then_ p f w = f a w'.
Proof. intros H. unfold then_. by rewrite H. Qed.

Lemma then_rejected {A B : Type} (p : Promise A) (f : A -> Promise B)
    (w w' : World Store) (e : JsError) :
  p w = (w', inl e) -> then_ p f w = (w', inl e).
Proof. intros H. unfold then_. by rewrite H. Qed.

Lemma detached_run {A : Type} (p : Promise A) (w w' : World Store) (a : A) :
  p w = (w', inr a) -> detached p w = (w', inr tt).
Proof. intros H. unfold detached. by rewrite H. Qed.

Lemma detached_rejected {A : Type} (p : Promise A) (w w' : World Store)
    (e : JsError) :
  p w = (w', inl e) -> detached p w = (with_unhandled w' e, inr tt).
Proof. intros H. unfold detached. by rewrite H. Qed.

(** *** The helpers *)

Lemma markAsPrimary_run (companyId : JsVal) (w : World Store) (s : Store)
    (r : JsError + unit) :
  update hubspotClient companyId (status_update "primary") (store w)
  = (s, r) ->
  markAsPrimary hubspotClient companyId None w
  = (with_call w s
       {| request := ReqUpdate companyId (status_update "primary");
          failure := failure_of r |}, r).
Proof.
  intros H. unfold markAsPrimary. destruct r as [e|[]].
  - erewrite then_rejected; [done|]. by apply remote_run.
  - erewrite then_run; [done|]. by apply remote_run.
Qed.

Lemma markAsPrimary_callback_run (companyId : JsVal) (w : World Store)
    (s : Store) :
  update hubspotClient companyId (status_update "primary") (store w)
  = (s, inr tt) ->
  markAsPrimary hubspotClient companyId (Some callback) w
  = (with_output
       (with_call w s (ok (ReqUpdate companyId (status_update "primary"))))
       (out_marked_primary companyId), inr tt).
Proof.
  intros H. unfold markAsPrimary.
  erewrite then_run; [|by apply (remote_run _ _ w s (inr tt))]. done.
Qed.

Lemma markAsPrimary_callback_rejected (companyId : JsVal) (w : World Store)
    (s : Store) (e : JsError) :
  update hubspotClient companyId (status_update "primary") (store w)
  = (s, inl e) ->
  markAsPrimary hubspotClient companyId (Some callback) w
  = (with_call w s (failed (ReqUpdate companyId (status_update "primary")) e),
     inl e).
Proof.
  intros H. unfold markAsPrimary.
  erewrite then_rejected; [done|].
  by apply (remote_run _ _ w s (inl e)).
Qed.

Lemma markAsMerged_run (companyId : JsVal) (w : World Store) (s : Store)
    (r : JsError + unit) :
  update hubspotClient companyId (status_update "merged") (store w)
  = (s, r) ->
  markAsMerged hubspotClient companyId w
  = (with_call w s
       {| request := ReqUpdate companyId (status_update "merged");
          failure := failure_of r |}, r).
Proof.
  intros H. unfold markAsMerged. destruct r as [e|[]].
  - erewrite then_rejected; [done|]. by apply remote_run.
  - erewrite then_run; [done|]. by apply remote_run.
Qed.

Lemma mergeCompanies_run (primaryId mergeId : JsVal) (w : World Store)
    (s : Store) (r : JsError + unit) :
  apiRequest hubspotClient
    {| method := "POST"; path := "/crm/v3/objects/companies/merge";
       body := {| primaryObjectId := primaryId;
                  objectIdToMerge := mergeId |} |} (store w)
  = (s, r) ->
  mergeCompanies hubspotClient primaryId mergeId w
  = (with_call w s
       {| request := merge_request primaryId mergeId;
          failure := failure_of r |}, r).
Proof.
  intros H. unfold mergeCompanies. destruct r as [e|[]].
  - erewrite then_rejected; [done|]. by apply remote_run.
  - erewrite then_run; [done|]. by apply remote_run.
Qed.
Section KeepsHelpers.
Context (I : World Store -> Prop) (Pc : Call -> Prop)
        (Po : gmap string JsVal -> Prop) (HI : stable I Pc Po).

Lemma keeps_markAsPrimary (companyId : JsVal) :
  (forall f, Pc {| request := ReqUpdate companyId (status_update "primary");
                   failure := f |}) ->
  keeps I (markAsPrimary hubspotClient companyId None).
Proof.
  intros H. unfold markAsPrimary.
  apply keeps_then; [by eapply keeps_remote|].
  intros a. apply keeps_resolve.
Qed.

Lemma keeps_markAsPrimary_callback (companyId : JsVal) :
  (forall f, Pc {| request := ReqUpdate companyId (status_update "primary");
                   failure := f |}) ->
  Po (out_marked_primary companyId) ->
  keeps I (markAsPrimary hubspotClient companyId (Some callback)).
Proof.
  intros H Hout. unfold markAsPrimary.
  apply keeps_then; [by eapply keeps_remote|].
  intros a. apply keeps_then; [by eapply keeps_callback|].
  intros _. apply keeps_resolve.
Qed.

Lemma keeps_markAsMerged (companyId : JsVal) :
  (forall f, Pc {| request := ReqUpdate companyId (status_update "merged");
                   failure := f |}) ->
  keeps I (markAsMerged hubspotClient companyId).
Proof.
  intros H. unfold markAsMerged.
  apply keeps_then; [by eapply keeps_remote|].
  intros a. apply keeps_resolve.
Qed.

Lemma keeps_mergeCompanies (primaryId mergeId : JsVal) :
  (forall f, Pc {| request := merge_request primaryId mergeId;
                   failure := f |}) ->
  keeps I (mergeCompanies hubspotClient primaryId mergeId).
Proof.
  intros H. unfold mergeCompanies.
  apply keeps_then; [by eapply keeps_remote|].
  intros a. apply keeps_resolve.
Qed.
End KeepsHelpers.

(** *** The chain that marks, merges and marks again *)

Lemma absorb_run (primaryId mergeId : JsVal) (out : gmap string JsVal)
    (w : World Store) (s1 s2 s3 : Store) :
  update hubspotClient mergeId (status_update "merged") (store w)
  = (s1, inr tt) ->
  apiRequest hubspotClient
    {| method := "POST"; path := "/crm/v3/objects/companies/merge";
       body := {| primaryObjectId := primaryId;
                  objectIdToMerge := mergeId |} |} s1
  = (s2, inr tt) ->
  update hubspotClient primaryId (status_update "primary") s2
  = (s3, inr tt) ->
  absorb hubspotClient primaryId mergeId out w
  = ({| store := s3;
        calls := calls w
                 ++ [ok (ReqUpdate mergeId (status_update "merged"));
                     ok (merge_request primaryId mergeId);
                     ok (ReqUpdate primaryId (status_update "primary"))];
        outputs := outputs w ++ [out];
        unhandled := unhandled w |}, inr tt).
Proof.
  intros H1 H2 H3. unfold absorb.
  erewrite detached_run; [reflexivity|]. rewrite catch_rethrow.
  erewrite then_run; cycle 1.
  { erewrite then_run; cycle 1.
    { erewrite then_run; [|by apply markAsMerged_run].
      by apply mergeCompanies_run. }
    by apply markAsPrimary_run. }
  unfold callback, with_output, with_call, ok. simpl.
  by rewrite <- !app_assoc.
Qed.

Lemma absorb_mark_rejected (primaryId mergeId : JsVal)
    (out : gmap string JsVal) (w : World Store) (s1 : Store) (e : JsError) :
  update hubspotClient mergeId (status_update "merged") (store w)
  = (s1, inl e) ->
  absorb hubspotClient primaryId mergeId out w
  = (with_unhandled
       (with_call w s1 (failed (ReqUpdate mergeId (status_update "merged")) e))
       e, inr tt).
Proof.
  intros H1. unfold absorb. apply detached_rejected.
  rewrite catch_rethrow. do 3 apply then_rejected.
  exact (markAsMerged_run mergeId w s1 (inl e) H1).
Qed.

Lemma absorb_merge_rejected (primaryId mergeId : JsVal)
    (out : gmap string JsVal) (w : World Store) (s1 s2 : Store)
    (e : JsError) :
  update hubspotClient mergeId (status_update "merged") (store w)
  = (s1, inr tt) ->
  apiRequest hubspotClient
    {| method := "POST"; path := "/crm/v3/objects/companies/merge";
       body := {| primaryObjectId := primaryId;
                  objectIdToMerge := mergeId |} |} s1
  = (s2, inl e) ->
  absorb hubspotClient primaryId mergeId out w
  = (with_unhandled
       (with_call
          (with_call w s1 (ok (ReqUpdate mergeId (status_update "merged"))))
          s2 (failed (merge_request primaryId mergeId) e))
       e, inr tt).
Proof.
  intros H1 H2. unfold absorb. apply detached_rejected.
  rewrite catch_rethrow. do 2 apply then_rejected.
  erewrite then_run; [|exact (markAsMerged_run mergeId w s1 (inr tt) H1)].
  apply (mergeCompanies_run _ _ _ s2 (inl e)); exact H2.
Qed.

Lemma absorb_primary_rejected (primaryId mergeId : JsVal)
    (out : gmap string JsVal) (w : World Store) (s1 s2 s3 : Store)
    (e : JsError) :
  update hubspotClient mergeId (status_update "merged") (store w)
  = (s1, inr tt) ->
  apiRequest hubspotClient
    {| method := "POST"; path := "/crm/v3/objects/companies/merge";
       body := {| primaryObjectId := primaryId;
                  objectIdToMerge := mergeId |} |} s1
  = (s2, inr tt) ->
  update hubspotClient primaryId (status_update "primary") s2
  = (s3, inl e) ->
  absorb hubspotClient primaryId mergeId out w
  = (with_unhandled
       (with_call
          (with_call
             (with_call w s1
                (ok (ReqUpdate mergeId (status_update "merged"))))
             s2 (ok (merge_request primaryId mergeId)))
          s3 (failed (ReqUpdate primaryId (status_update "primary")) e))
       e, inr tt).
Proof.
  intros H1 H2 H3. unfold absorb. apply detached_rejected.
  rewrite catch_rethrow. apply then_rejected.
  erewrite then_run; cycle 1.
  { erewrite then_run; [|exact (markAsMerged_run mergeId w s1 (inr tt) H1)].
    apply (mergeCompanies_run _ _ _ s2 (inr tt)); exact H2. }
  apply (markAsPrimary_run _ _ s3 (inl e)); exact H3.
Qed.

(** Whatever happens next, the chain starts by marking [mergeId]. *)
Lemma absorb_first_call (primaryId mergeId : JsVal)
    (out : gmap string JsVal) (w : World Store) :
  exists f rest,
    calls (absorb hubspotClient primaryId mergeId out w).1
    = calls w
      ++ {| request := ReqUpdate mergeId (status_update "merged");
            failure := f |} :: rest.
Proof.
  destruct (update hubspotClient mergeId (status_update "merged") (store w))
    as [s1 [e|[]]] eqn:H1.
  { erewrite absorb_mark_rejected by done. simpl. eauto. }
  destruct (apiRequest hubspotClient
              {| method := "POST";
                 path := "/crm/v3/objects/companies/merge";
                 body := {| primaryObjectId := primaryId;
                            objectIdToMerge := mergeId |} |} s1)
    as [s2 [e|[]]] eqn:H2.
  { erewrite absorb_merge_rejected by done. simpl.
    rewrite <- app_assoc. eauto. }
  destruct (update hubspotClient primaryId (status_update "primary") s2)
    as [s3 [e|[]]] eqn:H3.
  { erewrite absorb_primary_rejected by done. simpl.
    rewrite <- !app_assoc. eauto. }
  erewrite absorb_run by done. simpl. eauto.
Qed.

(** The requests of the chain, in order: a mutation is issued when those
    before it succeeded. *)
Lemma absorb_requests (primaryId mergeId : JsVal)
    (out : gmap string JsVal) (w : World Store) :
  exists more,
    request <$> calls (absorb hubspotClient primaryId mergeId out w).1
    = (request <$> calls w)
      ++ ReqUpdate mergeId (status_update "merged") :: more
    /\ more `prefix_of` [merge_request primaryId mergeId;
                         ReqUpdate primaryId (status_update "primary")].
Proof.
  destruct (update hubspotClient mergeId (status_update "merged") (store w))
    as [s1 [e|[]]] eqn:H1.
  { erewrite absorb_mark_rejected by done. simpl. rewrite fmap_app.
    exists []. split; [done|]. apply prefix_nil. }
  destruct (apiRequest hubspotClient
              {| method := "POST";
                 path := "/crm/v3/objects/companies/merge";
                 body := {| primaryObjectId := primaryId;
                            objectIdToMerge := mergeId |} |} s1)
    as [s2 [e|[]]] eqn:H2.
  { erewrite absorb_merge_rejected by done. simpl.
    rewrite !fmap_app, <- app_assoc.
    exists [merge_request primaryId mergeId]. split; [done|].
    by apply prefix_cons, prefix_nil. }
  destruct (update hubspotClient primaryId (status_update "primary") s2)
    as [s3 [e|[]]] eqn:H3.
  { erewrite absorb_primary_rejected by done. simpl.
    rewrite !fmap_app, <- !app_assoc.
    exists [merge_request primaryId mergeId;
            ReqUpdate primaryId (status_update "primary")]. done. }
  erewrite absorb_run by done. simpl. rewrite fmap_app.
  exists [merge_request primaryId mergeId;
          ReqUpdate primaryId (status_update "primary")]. done.
Qed.

Lemma keeps_absorb (I : World Store -> Prop) (Pc : Call -> Prop)
    (Po : gmap string JsVal -> Prop) (primaryId mergeId : JsVal)
    (out : gmap string JsVal) :
  stable I Pc Po ->
  (forall f, Pc {| request := ReqUpdate mergeId (status_update "merged");
                   failure := f |}) ->
  (forall f, Pc {| request := merge_request primaryId mergeId;
                   failure := f |}) ->
  (forall f, Pc {| request := ReqUpdate primaryId (status_update "primary");
                   failure := f |}) ->
  Po out ->
  keeps I (absorb hubspotClient primaryId mergeId out).
Proof.
  intros HI H1 H2 H3 Hout. unfold absorb.
  eapply keeps_detached; [exact HI|]. apply keeps_catch_rethrow.
  apply keeps_then; [|intros _; by eapply keeps_callback].
  apply keeps_then; [|intros _; by eapply keeps_markAsPrimary].
  apply keeps_then; [|intros _; by eapply keeps_mergeCompanies].
  by eapply keeps_markAsMerged.
Qed.

(** *** The handlers, branch by branch *)

Lemma onSearchResults_no_duplicates (event : Event) (sr : SearchResults) :
  uniqueIds (objectId event) (results sr) = [] ->
  onSearchResults hubspotClient event sr
  = detached (markAsPrimary hubspotClient (objectId event) (Some callback)).
Proof. intros H. unfold onSearchResults. by rewrite H. Qed.

Lemma onSearchResults_current_primary (event : Event) (sr : SearchResults) :
  uniqueIds (objectId event) (results sr) <> [] ->
  primaryId (objectId event) (results sr) = objectId event ->
  onSearchResults hubspotClient event sr
  = absorb hubspotClient (objectId event)
      (nth 0 (uniqueIds (objectId event) (results sr)) JUndefined)
      (out_merged_duplicate event
         (nth 0 (uniqueIds (objectId event) (results sr)) JUndefined)
         (Z.of_nat (length (uniqueIds (objectId event) (results sr))) - 1)).
Proof.
  intros Hne Hp. unfold onSearchResults, mergeDuplicateIntoCurrent.
  rewrite Hp. unfold strict_eq. rewrite bool_decide_eq_true_2 by done.
  by destruct (uniqueIds (objectId event) (results sr)).
Qed.

Lemma onSearchResults_other_primary (event : Event) (sr : SearchResults) :
  primaryId (objectId event) (results sr) <> objectId event ->
  onSearchResults hubspotClient event sr
  = absorb hubspotClient (primaryId (objectId event) (results sr)) (objectId event)
      (out_merged_into_primary event
         (primaryId (objectId event) (results sr))).
Proof.
  intros Hp. unfold onSearchResults.
  destruct (uniqueIds (objectId event) (results sr)) eqn:E.
  { by apply primaryId_no_duplicates in E. }
  unfold strict_eq. by rewrite bool_decide_eq_false_2 by done.
Qed.

Lemma onCompanyResult_merged (event : Event) (c : Company) :
  properties c !! DEDUPLICATION_STATUS_PROPERTY = Some "merged" ->
  onCompanyResult hubspotClient event c
  = callback (out_already_merged event).
Proof. intros H. unfold onCompanyResult. by rewrite H. Qed.

Lemma onCompanyResult_no_query (event : Event) (c : Company) :
  properties c !! DEDUPLICATION_STATUS_PROPERTY <> Some "merged" ->
  buildFilterGroups c = [] ->
  onCompanyResult hubspotClient event c
  = detached (markAsPrimary hubspotClient (objectId event) (Some callback)).
Proof.
  intros Hst Hq. unfold onCompanyResult.
  rewrite bool_decide_eq_false_2 by done. by rewrite Hq.
Qed.

Lemma onCompanyResult_search (event : Event) (c : Company) :
  properties c !! DEDUPLICATION_STATUS_PROPERTY <> Some "merged" ->
  buildFilterGroups c <> [] ->
  onCompanyResult hubspotClient event c
  = detached
      (catch_
         (then_ (remote (ReqDoSearch (search_request c))
                        (doSearch hubspotClient (search_request c)))
            (onSearchResults hubspotClient event))
         (fun error => throw error)).
Proof.
  intros Hst Hq. unfold onCompanyResult, search_request.
  rewrite bool_decide_eq_false_2 by done.
  by destruct (buildFilterGroups c).
Qed.

(** The handlers start chains and return: they never reject. *)
Lemma detached_resolves {A : Type} (p : Promise A) (w : World Store) :
  detached p w = ((detached p w).1, inr tt).
Proof. unfold detached. by destruct (p w) as [w' [e|a]]. Qed.

Lemma absorb_resolves (primaryId mergeId : JsVal)
    (out : gmap string JsVal) (w : World Store) :
  absorb hubspotClient primaryId mergeId out w
  = ((absorb hubspotClient primaryId mergeId out w).1, inr tt).
Proof. apply detached_resolves. Qed.

Lemma onSearchResults_resolves (event : Event) (sr : SearchResults)
    (w : World Store) :
  onSearchResults hubspotClient event sr w
  = ((onSearchResults hubspotClient event sr w).1, inr tt).
Proof.
  unfold onSearchResults, mergeDuplicateIntoCurrent, mergeCurrentIntoPrimary.
  repeat case_match; apply detached_resolves.
Qed.

Lemma onCompanyResult_resolves (event : Event) (c : Company)
    (w : World Store) :
  onCompanyResult hubspotClient event c w
  = ((onCompanyResult hubspotClient event c w).1, inr tt).
Proof.
  unfold onCompanyResult. repeat case_match; try apply detached_resolves.
  done.
Qed.

(** *** One invocation *)

Lemma run_fetch_rejected (event : Event) (s s1 : Store) (e : JsError) :
  getById hubspotClient (objectId event) ALL_PROPERTIES s = (s1, inl e) ->
  run hubspotClient event s
  = {| store := s1; calls := [failed (get_request event) e];
       outputs := []; unhandled := [e] |}.
Proof.
  intros H. unfold run, main.
  rewrite (detached_rejected _ (start s)
             (with_call (start s) s1 (failed (get_request event) e)) e);
    [reflexivity|].
  rewrite catch_rethrow. apply then_rejected.
  by apply (remote_run _ _ (start s) s1 (inl e)).
Qed.

Lemma run_fetched (event : Event) (s s1 : Store) (c : Company) :
  getById hubspotClient (objectId event) ALL_PROPERTIES s = (s1, inr c) ->
  run hubspotClient event s
  = (onCompanyResult hubspotClient event c
       {| store := s1; calls := [ok (get_request event)];
          outputs := []; unhandled := [] |}).1.
Proof.
  intros H. unfold run, main.
  set (w1 := {| store := s1; calls := [ok (get_request event)];
                outputs := []; unhandled := [] |}).
  rewrite (detached_run _ (start s)
             (onCompanyResult hubspotClient event c w1).1 tt);
    [reflexivity|].
  rewrite catch_rethrow.
  rewrite (then_run _ _ (start s) w1 c);
    [|by apply (remote_run _ _ (start s) s1 (inr c))].
  apply onCompanyResult_resolves.
Qed.

Lemma search_rejected (event : Event) (c : Company) (w : World Store)
    (s : Store) (e : JsError) :
  doSearch hubspotClient (search_request c) (store w) = (s, inl e) ->
  detached
    (catch_
       (then_ (remote (ReqDoSearch (search_request c))
                      (doSearch hubspotClient (search_request c)))
          (onSearchResults hubspotClient event))
       (fun error => throw error)) w
  = (with_unhandled
       (with_call w s (failed (ReqDoSearch (search_request c)) e)) e,
     inr tt).
Proof.
  intros H. apply detached_rejected.
  rewrite catch_rethrow. apply then_rejected.
  by apply (remote_run _ _ w s (inl e)).
Qed.

Lemma search_fulfilled (event : Event) (c : Company) (w : World Store)
    (s : Store) (sr : SearchResults) :
  doSearch hubspotClient (search_request c) (store w) = (s, inr sr) ->
  detached
    (catch_
       (then_ (remote (ReqDoSearch (search_request c))
                      (doSearch hubspotClient (search_request c)))
          (onSearchResults hubspotClient event))
       (fun error => throw error)) w
  = onSearchResults hubspotClient event sr
      (with_call w s (ok (ReqDoSearch (search_request c)))).
Proof.
  intros H. rewrite (onSearchResults_resolves event sr).
  apply (detached_run _ _ _ tt). rewrite catch_rethrow.
  rewrite (then_run _ _ w
             (with_call w s (ok (ReqDoSearch (search_request c)))) sr);
    [|by apply (remote_run _ _ w s (inr sr))].
  apply onSearchResults_resolves.
Qed.
(** *** Invariants of a whole invocation *)

Section KeepsHandlers.
Context (I : World Store -> Prop) (Pc : Call -> Prop)
        (Po : gmap string JsVal -> Prop) (event : Event)
        (HI : stable I Pc Po) (Hcov : covers_merging Pc Po event).

Lemma keeps_mark_current_primary :
  keeps I
    (detached (markAsPrimary hubspotClient (objectId event)
                 (Some callback))).
Proof.
  eapply keeps_detached; [exact HI|].
  eapply keeps_markAsPrimary_callback; [exact HI| |]; apply Hcov.
Qed.

Lemma keeps_onSearchResults (sr : SearchResults) :
  keeps I (onSearchResults hubspotClient event sr).
Proof.
  destruct (decide (uniqueIds (objectId event) (results sr) = []))
    as [Hnone|Hsome].
  { rewrite onSearchResults_no_duplicates by done.
    apply keeps_mark_current_primary. }
  destruct (decide (primaryId (objectId event) (results sr)
                    = objectId event)) as [Hcur|Hother].
  - rewrite onSearchResults_current_primary by done.
    eapply keeps_absorb; [exact HI|..]; apply Hcov.
  - rewrite onSearchResults_other_primary by done.
    eapply keeps_absorb; [exact HI|..]; apply Hcov.
Qed.

Lemma keeps_search (c : Company) :
  (forall f, Pc {| request := ReqDoSearch (search_request c);
                   failure := f |}) ->
  keeps I
    (detached
       (catch_
          (then_ (remote (ReqDoSearch (search_request c))
                         (doSearch hubspotClient (search_request c)))
             (onSearchResults hubspotClient event))
          (fun error => throw error))).
Proof.
  intros Hs. eapply keeps_detached; [exact HI|].
  apply keeps_catch_rethrow.
  apply keeps_then; [by eapply keeps_remote|].
  apply keeps_onSearchResults.
Qed.

Lemma keeps_onCompanyResult (c : Company) :
  (forall f, Pc {| request := ReqDoSearch (search_request c);
                   failure := f |}) ->
  Po (out_already_merged event) ->
  keeps I (onCompanyResult hubspotClient event c).
Proof.
  intros Hs Hout.
  destruct (decide (properties c !! DEDUPLICATION_STATUS_PROPERTY
                    = Some "merged")) as [Hm|Hm].
  { rewrite onCompanyResult_merged by done. by eapply keeps_callback. }
  destruct (decide (buildFilterGroups c = [])) as [Hq|Hq].
  - rewrite onCompanyResult_no_query by done.
    apply keeps_mark_current_primary.
  - rewrite onCompanyResult_search by done. by apply keeps_search.
Qed.

Lemma keeps_main :
  (forall f, Pc {| request := get_request event; failure := f |}) ->
  (forall c f, Pc {| request := ReqDoSearch (search_request c);
                     failure := f |}) ->
  Po (out_already_merged event) ->
  keeps I (main hubspotClient event).
Proof.
  intros Hg Hs Hout. unfold main.
  eapply keeps_detached; [exact HI|]. apply keeps_catch_rethrow.
  apply keeps_then; [by eapply keeps_remote|].
  intros c. by apply keeps_onCompanyResult.
Qed.
End KeepsHandlers.
End Runs.

(** ** Failures of remote operations *)

Section Failures.
Context (hubspotClient : Client Store).

Lemma Quiet_Settled (w : World Store) : Quiet w -> Settled w.
Proof.
  intros (Hc & Ho & Hu). left. split; [done|]. split; [|done].
  rewrite Ho. constructor.
Qed.

Lemma step_remote {A : Type} (req : Request)
    (op : Store -> Store * (JsError + A)) :
  triple Quiet (remote req op) step_post.
Proof.
  apply triple_remote. intros w s [e|a] (Hc & Ho & Hu); simpl.
  - split; [|done]. exists (calls w), {| request := req; failure := Some e |}.
    done.
  - split; [|done]. apply Forall_app. split; [done|].
    by apply Forall_singleton.
Qed.

Lemma step_then {A B : Type} (p : Promise A) (f : A -> Promise B) :
  triple Quiet p step_post -> (forall a, triple Quiet (f a) step_post) ->
  triple Quiet (then_ p f) step_post.
Proof.
  intros Hp Hf. eapply triple_then; [exact Hp| |done].
  intros a. exact (Hf a).
Qed.

Lemma final_then {A B : Type} (p : Promise A) (f : A -> Promise B) :
  triple Quiet p step_post -> (forall a, triple Quiet (f a) final_post) ->
  triple Quiet (then_ p f) final_post.
Proof.
  intros Hp Hf. eapply triple_then; [exact Hp| |done].
  intros a. exact (Hf a).
Qed.

Lemma final_detached {A : Type} (p : Promise A) :
  triple Quiet p final_post -> triple Quiet (detached p) final_post.
Proof.
  intros Hp. eapply triple_detached; [exact Hp|done|].
  intros w e [Hf Hu]. right. exists e. split; [done|].
  simpl. by rewrite Hu.
Qed.

Lemma final_callback (o : gmap string JsVal) :
  no_error_field o -> triple Quiet (callback o) final_post.
Proof.
  intros Ho. apply triple_callback. intros w (Hc & Hout & Hu).
  left. split; [done|]. split; [|done].
  simpl. rewrite Hout. by apply Forall_singleton.
Qed.

Lemma step_resolve {A : Type} (a : A) : triple Quiet (resolve a) step_post.
Proof. intros w w' r Hw E. by injection E as <- <-. Qed.

Lemma step_markAsMerged (companyId : JsVal) :
  triple Quiet (markAsMerged hubspotClient companyId) step_post.
Proof.
  unfold markAsMerged. apply step_then; [apply step_remote|].
  intros a. apply step_resolve.
Qed.

Lemma step_mergeCompanies (primaryId mergeId : JsVal) :
  triple Quiet (mergeCompanies hubspotClient primaryId mergeId) step_post.
Proof.
  unfold mergeCompanies. apply step_then; [apply step_remote|].
  intros a. apply step_resolve.
Qed.

Lemma step_markAsPrimary (companyId : JsVal) :
  triple Quiet (markAsPrimary hubspotClient companyId None) step_post.
Proof.
  unfold markAsPrimary. apply step_then; [apply step_remote|].
  intros a. apply step_resolve.
Qed.

Lemma out_marked_primary_no_error (companyId : JsVal) :
  no_error_field (out_marked_primary companyId).
Proof. unfold no_error_field, out_marked_primary. by simplify_map_eq. Qed.

Lemma out_already_merged_no_error (event : Event) :
  no_error_field (out_already_merged event).
Proof. unfold no_error_field, out_already_merged. by simplify_map_eq. Qed.

Lemma out_merged_duplicate_no_error (event : Event) (d : JsVal) (n : Z) :
  no_error_field (out_merged_duplicate event d n).
Proof. unfold no_error_field, out_merged_duplicate. by simplify_map_eq. Qed.

Lemma out_merged_into_primary_no_error (event : Event) (p : JsVal) :
  no_error_field (out_merged_into_primary event p).
Proof.
  unfold no_error_field, out_merged_into_primary. by simplify_map_eq.
Qed.

Lemma final_markAsPrimary_callback (companyId : JsVal) :
  triple Quiet (markAsPrimary hubspotClient companyId (Some callback))
    final_post.
Proof.
  unfold markAsPrimary. apply final_then; [apply step_remote|].
  intros a w w' r Hw E. unfold then_, callback, resolve in E.
  injection E as <- <-. destruct Hw as (Hc & Ho & Hu).
  left. split; [done|]. split; [|done]. simpl. rewrite Ho.
  apply Forall_singleton, out_marked_primary_no_error.
Qed.

Lemma final_absorb (primaryId mergeId : JsVal) (out : gmap string JsVal) :
  no_error_field out ->
  triple Quiet (absorb hubspotClient primaryId mergeId out) final_post.
Proof.
  intros Hout. unfold absorb.
  apply final_detached, triple_catch_rethrow.
  apply final_then; [|intros _; by apply final_callback].
  apply step_then; [|intros _; apply step_markAsPrimary].
  apply step_then; [|intros _; apply step_mergeCompanies].
  apply step_markAsMerged.
Qed.

Lemma final_onSearchResults (event : Event) (sr : SearchResults) :
  triple Quiet (onSearchResults hubspotClient event sr) final_post.
Proof.
  destruct (decide (uniqueIds (objectId event) (results sr) = []))
    as [Hnone|Hsome].
  { rewrite onSearchResults_no_duplicates by done.
    apply final_detached, final_markAsPrimary_callback. }
  destruct (decide (primaryId (objectId event) (results sr)
                    = objectId event)) as [Hcur|Hother].
  - rewrite onSearchResults_current_primary by done.
    apply final_absorb, out_merged_duplicate_no_error.
  - rewrite onSearchResults_other_primary by done.
    apply final_absorb, out_merged_into_primary_no_error.
Qed.

Lemma final_onCompanyResult (event : Event) (c : Company) :
  triple Quiet (onCompanyResult hubspotClient event c) final_post.
Proof.
  destruct (decide (properties c !! DEDUPLICATION_STATUS_PROPERTY
                    = Some "merged")) as [Hm|Hm].
  { rewrite onCompanyResult_merged by done.
    apply final_callback, out_already_merged_no_error. }
  destruct (decide (buildFilterGroups c = [])) as [Hq|Hq].
  - rewrite onCompanyResult_no_query by done.
    apply final_detached, final_markAsPrimary_callback.
  - rewrite onCompanyResult_search by done.
    apply final_detached, triple_catch_rethrow.
    apply final_then; [apply step_remote|].
    apply final_onSearchResults.
Qed.

Lemma final_main (event : Event) :
  triple Quiet (main hubspotClient event) final_post.
Proof.
  unfold main. apply final_detached, triple_catch_rethrow.
  apply final_then; [apply step_remote|].
  apply final_onCompanyResult.
Qed.

Lemma run_Settled (event : Event) (s : Store) :
  Settled (run hubspotClient event s).
Proof.
  unfold run.
  destruct (main hubspotClient event (start s)) as [w r] eqn:E.
  assert (Quiet (start s)) as Hq by (by split; [constructor|]).
  pose proof (final_main event (start s) w r Hq E) as Hpost.
  unfold main in E. rewrite detached_resolves in E.
  injection E as _ <-. exact Hpost.
Qed.

(** In a settled world a rejected call is the last call. *)
Lemma Settled_failure_last (w : World Store) (cs cs' : list Call)
    (c : Call) (e : JsError) :
  Settled w -> calls w = cs ++ c :: cs' -> failure c = Some e ->
  cs' = [] /\ outputs w = [] /\ unhandled w = [e].
Proof.
  intros [(Hok & _ & _)|(e0 & (cs0 & c0 & Hcalls & Hok & Hf & Hout) & Hu)]
         Hsplit Hfail.
  - rewrite Hsplit in Hok. apply Forall_app in Hok as [_ Hok].
    apply Forall_cons in Hok as [Hc _]. unfold succeeded in Hc. congruence.
  - rewrite Hsplit in Hcalls.
    induction cs' as [|x cs1 _] using rev_ind.
    + apply app_inj_tail in Hcalls as [_ ->].
      rewrite Hfail in Hf. injection Hf as ->. done.
    + change (cs ++ c :: cs1 ++ [x]) with (cs ++ (c :: cs1) ++ [x]) in Hcalls.
      rewrite app_assoc in Hcalls. apply app_inj_tail in Hcalls as [<- _].
      apply Forall_app in Hok as [_ Hok].
      apply Forall_cons in Hok as [Hc _]. unfold succeeded in Hc. congruence.
Qed.
End Failures.

(** ** The payloads and the requests, told apart *)

Lemma status_update_inj (a b : string) :
  status_update a = status_update b -> a = b.
Proof.
  intros H. apply (f_equal update_properties) in H. simpl in H.
  apply (f_equal (fun m => m !! DEDUPLICATION_STATUS_PROPERTY)) in H.
  rewrite !lookup_singleton_eq in H. by injection H.
Qed.

Lemma status_update_dom (v : string) :
  dom (update_properties (status_update v))
  = ({[ DEDUPLICATION_STATUS_PROPERTY ]} : gset string).
Proof. simpl. apply dom_singleton_L. Qed.

Lemma result_already_merged (event : Event) :
  result_field (out_already_merged event)
  = Some (JStr "Already merged into another company").
Proof. unfold result_field, out_already_merged. by simplify_map_eq. Qed.

Lemma result_marked_primary (i : JsVal) :
  result_field (out_marked_primary i) = Some (JStr "Marked as primary").
Proof. unfold result_field, out_marked_primary. by simplify_map_eq. Qed.

Lemma result_merged_duplicate (event : Event) (d : JsVal) (n : Z) :
  result_field (out_merged_duplicate event d n)
  = Some (JStr "Successfully merged duplicate into this company").
Proof. unfold result_field, out_merged_duplicate. by simplify_map_eq. Qed.

Lemma result_merged_into_primary (event : Event) (p : JsVal) :
  result_field (out_merged_into_primary event p)
  = Some (JStr "Successfully merged into primary company").
Proof. unfold result_field, out_merged_into_primary. by simplify_map_eq. Qed.

Lemma keeps_fst {A : Type} (I : World Store -> Prop)
    (p : Promise A) (w : World Store) :
  keeps I p -> I w -> I (p w).1.
Proof. intros Hp Hw. destruct (p w) as [w' r] eqn:E. by eapply Hp. Qed.

Lemma first_elem (l : list JsVal) : l <> [] -> nth 0 l JUndefined ∈ l.
Proof. destruct l as [|x l]; [done|]. intros _. apply list_elem_of_here. Qed.

(** In an ascending array the first element that passes a filter is least
    among those that pass. *)
Lemma filter_sorted_first (f : JsVal -> bool) (l : list JsVal) (i : JsVal) :
  StronglySorted num_le l -> Forall numeric l ->
  i ∈ List.filter f l -> num_le (nth 0 (List.filter f l) JUndefined) i.
Proof.
  intros Hs Hn. induction Hs as [|x l Hs IH Hx]; simpl; [by rewrite elem_of_nil|].
  apply Forall_cons in Hn as [Hnx Hn].
  destruct (f x); [|by apply IH].
  simpl. rewrite elem_of_cons. intros [->|Hi]; [by apply num_le_refl|].
  eapply Forall_forall in Hx; [exact Hx|].
  apply list_elem_of_In, filter_In in Hi as [Hi _]. by apply list_elem_of_In.
Qed.

(** ** Whole invocations *)

Section Invocations.
Context (hubspotClient : Client Store).

(** C1 (as the code has it).  When a remote operation is rejected, it is the
    last remote call of the invocation, the callback is not invoked at all,
    and the rejection is thrown again with the error it carried, message
    included; no payload of any invocation has an [error] field. *)
Theorem failure_aborts_and_rethrows (event : Event) (s : Store) :
  (forall cs c cs' e,
      calls (run hubspotClient event s) = cs ++ c :: cs' ->
      failure c = Some e ->
      cs' = [] /\ outputs (run hubspotClient event s) = []
      /\ unhandled (run hubspotClient event s) = [e])
  /\ Forall no_error_field (outputs (run hubspotClient event s)).
Proof.
  pose proof (run_Settled hubspotClient event s) as Hs. split.
  - intros cs c cs' e Hsplit Hfail. by eapply Settled_failure_last.
  - destruct Hs as [(_ & Ho & _)|(e & (cs & c & _ & _ & _ & Ho) & _)];
      [done|]. rewrite Ho. constructor.
Qed.

(** C4.  After a successful fetch: a status equal to [merged] ends the
    invocation with the already-merged payload carrying the record's own
    identifier, the fetch being the only remote call; any other status lets
    the invocation go on to a second remote call, the search or the update
    that marks the record primary, and the already-merged payload is not
    reported. *)
Theorem status_gate (event : Event) (s s1 : Store) (c : Company) :
  getById hubspotClient (objectId event) ALL_PROPERTIES s = (s1, inr c) ->
  (properties c !! DEDUPLICATION_STATUS_PROPERTY = Some "merged" ->
   run hubspotClient event s
   = {| store := s1; calls := [ok (get_request event)];
        outputs := [out_already_merged event]; unhandled := [] |}
   /\ out_already_merged event !! "companyId" = Some (objectId event))
  /\ (properties c !! DEDUPLICATION_STATUS_PROPERTY <> Some "merged" ->
      (exists call rest,
          calls (run hubspotClient event s)
          = ok (get_request event) :: call :: rest
          /\ (request call
              = ReqUpdate (objectId event) (status_update "primary")
              \/ request call = ReqDoSearch (search_request c)))
      /\ Forall (fun o => result_field o
                          <> Some (JStr "Already merged into another company"))
           (outputs (run hubspotClient event s))).
Proof.
  intros Hget. rewrite (run_fetched _ _ _ _ _ Hget).
  set (w1 := {| store := s1; calls := [ok (get_request event)];
                outputs := []; unhandled := [] |}).
  split.
  { intros Hm. rewrite onCompanyResult_merged by done. split; [done|].
    unfold out_already_merged. by simplify_map_eq. }
  intros Hm.
  set (Po := fun o : gmap string JsVal =>
               result_field o
               <> Some (JStr "Already merged into another company")).
  assert (covers_merging (fun _ => True) Po event) as Hcov.
  { split; try done; intros; unfold Po;
      rewrite ?result_marked_primary, ?result_merged_duplicate,
        ?result_merged_into_primary; done. }
  assert (covers_merging (fun _ => True) (fun _ => True) event) as Hcov'
    by done.
  destruct (decide (buildFilterGroups c = [])) as [Hq|Hq].
  - rewrite onCompanyResult_no_query by done.
    destruct (update hubspotClient (objectId event) (status_update "primary")
                s1) as [s2 [e|[]]] eqn:Hu.
    + erewrite detached_rejected;
        [|by apply markAsPrimary_callback_rejected]. simpl.
      split; [eauto 10|constructor].
    + erewrite detached_run; [|by apply markAsPrimary_callback_run]. simpl.
      split; [eauto 10|]. apply Forall_singleton. unfold Po.
      by rewrite result_marked_primary.
  - rewrite onCompanyResult_search by done.
    destruct (doSearch hubspotClient (search_request c) s1)
      as [s2 [e|sr]] eqn:Hsearch.
    + erewrite search_rejected by done. simpl.
      split; [eauto 10|constructor].
    + erewrite search_fulfilled by done.
      set (w2 := with_call w1 s2 (ok (ReqDoSearch (search_request c)))).
      split.
      * assert (calls w2 `prefix_of`
                  calls (onSearchResults hubspotClient event sr w2).1)
          as [rest Hrest].
        { apply (keeps_fst (fun w => calls w2 `prefix_of` calls w));
            [|done].
          eapply keeps_onSearchResults; [apply prefix_stable|done]. }
        rewrite Hrest. simpl. eauto 10.
      * apply (keeps_fst (trace_inv (fun _ => True) Po)).
        -- eapply keeps_onSearchResults; [apply trace_inv_stable|done].
        -- split; simpl; repeat constructor.
Qed.
(** The invocation up to the handler of the search results. *)
Lemma run_searched (event : Event) (s s1 s2 : Store) (c : Company)
    (sr : SearchResults) :
  getById hubspotClient (objectId event) ALL_PROPERTIES s = (s1, inr c) ->
  properties c !! DEDUPLICATION_STATUS_PROPERTY <> Some "merged" ->
  truthy (properties c !! DEDUPE_PROPERTY) = true ->
  doSearch hubspotClient (search_request c) s1 = (s2, inr sr) ->
  run hubspotClient event s
  = (onSearchResults hubspotClient event sr
       {| store := s2;
          calls := [ok (get_request event);
                    ok (ReqDoSearch (search_request c))];
          outputs := []; unhandled := [] |}).1.
Proof.
  intros Hget Hm Hname Hsearch. rewrite (run_fetched _ _ _ _ _ Hget).
  rewrite onCompanyResult_search
    by (try apply buildFilterGroups_nonempty; done).
  by erewrite search_fulfilled by done.
Qed.

(** C5.  With safe identifiers (non-negative integers up to 2^53 - 1, as
    numbers or as decimal digit strings): when the primary identifier is not
    the current one, it is a candidate with a numerically smaller
    identifier, and the mutations of the invocation are, in this order, the update marking the current
    record [merged], the merge request with the primary identifier as primary
    and the current one as the record to merge, and the update marking the
    primary record [primary]: the first is always issued, each later one
    when those before it succeeded.  When the three succeed none is skipped,
    nothing else is issued, and the invocation reports the
    merged-into-primary payload with both identifiers. *)
Theorem merge_into_primary_sequence (event : Event) (s s1 s2 : Store)
    (c : Company) (sr : SearchResults) :
  getById hubspotClient (objectId event) ALL_PROPERTIES s = (s1, inr c) ->
  properties c !! DEDUPLICATION_STATUS_PROPERTY <> Some "merged" ->
  truthy (properties c !! DEDUPE_PROPERTY) = true ->
  doSearch hubspotClient (search_request c) s1 = (s2, inr sr) ->
  safe_id (objectId event) ->
  results_safe (results sr) ->
  primaryId (objectId event) (results sr) <> objectId event ->
  let p := primaryId (objectId event) (results sr) in
  p ∈ uniqueIds (objectId event) (results sr)
  /\ num_lt p (objectId event)
  /\ (exists more,
      request <$> calls (run hubspotClient event s)
      = [get_request event; ReqDoSearch (search_request c);
         ReqUpdate (objectId event) (status_update "merged")] ++ more
      /\ more `prefix_of` [merge_request p (objectId event);
                           ReqUpdate p (status_update "primary")])
  /\ (forall s3 s4 s5,
        update hubspotClient (objectId event) (status_update "merged") s2
        = (s3, inr tt) ->
        apiRequest hubspotClient
          {| method := "POST"; path := "/crm/v3/objects/companies/merge";
             body := {| primaryObjectId := p;
                        objectIdToMerge := objectId event |} |} s3
        = (s4, inr tt) ->
        update hubspotClient p (status_update "primary") s4 = (s5, inr tt) ->
        run hubspotClient event s
        = {| store := s5;
             calls :=
               [ok (get_request event);
                ok (ReqDoSearch (search_request c));
                ok (ReqUpdate (objectId event) (status_update "merged"));
                ok (merge_request p (objectId event));
                ok (ReqUpdate p (status_update "primary"))];
             outputs := [out_merged_into_primary event p];
             unhandled := [] |}
        /\ out_merged_into_primary event p !! "primaryCompanyId" = Some p
        /\ out_merged_into_primary event p !! "mergedCompanyId"
           = Some (objectId event)).
Proof.
  intros Hget Hm Hname Hsearch Hcur%safe_id_numeric Hrs%results_safe_numeric
         Hother p.
  assert (p ∈ uniqueIds (objectId event) (results sr)) as Hp.
  { pose proof (primaryId_elem (objectId event) (results sr)) as Hin.
    apply elem_of_app in Hin as [Hin|Hin]; [done|].
    by apply list_elem_of_singleton in Hin. }
  split; [done|]. split.
  { apply num_lt_of_le.
    - apply (proj2 (primaryId_spec _ _ Hcur Hrs)), elem_of_app. right.
      apply list_elem_of_here.
    - by apply (uniqueIds_differs _ (results sr)). }
  rewrite (run_searched _ _ _ _ _ _ Hget Hm Hname Hsearch).
  rewrite onSearchResults_other_primary by done. fold p. split.
  - destruct (absorb_requests hubspotClient p (objectId event)
                (out_merged_into_primary event p)
                {| store := s2;
                   calls := [ok (get_request event);
                             ok (ReqDoSearch (search_request c))];
                   outputs := []; unhandled := [] |})
      as (more & Hreq & Hpre).
    exists more. by rewrite Hreq.
  - intros s3 s4 s5 H1 H2 H3. split.
    + by erewrite absorb_run by done.
    + unfold out_merged_into_primary. by simplify_map_eq.
Qed.


(** C7 (as the code has it).  When the fetched record is not marked
    [merged] and has no identifying value, the only remote call after the
    fetch is the update marking the current record [primary]: no search is
    issued.  When that update succeeds the invocation reports the
    marked-primary payload with the record's identifier; no other payload is
    ever reported, and none has an [error] field. *)
Theorem no_identifying_value_marks_primary (event : Event) (s s1 : Store)
    (c : Company) :
  getById hubspotClient (objectId event) ALL_PROPERTIES s = (s1, inr c) ->
  properties c !! DEDUPLICATION_STATUS_PROPERTY <> Some "merged" ->
  truthy (properties c !! DEDUPE_PROPERTY) = false ->
  request <$> calls (run hubspotClient event s)
  = [get_request event;
     ReqUpdate (objectId event) (status_update "primary")]
  /\ (forall s2,
        update hubspotClient (objectId event) (status_update "primary") s1
        = (s2, inr tt) ->
        run hubspotClient event s
        = {| store := s2;
             calls := [ok (get_request event);
                       ok (ReqUpdate (objectId event)
                             (status_update "primary"))];
             outputs := [out_marked_primary (objectId event)];
             unhandled := [] |})
  /\ Forall (fun o => o = out_marked_primary (objectId event)
                      /\ o !! "primaryCompanyId" = Some (objectId event)
                      /\ o !! "error" = None)
       (outputs (run hubspotClient event s)).
Proof.
  intros Hget Hm Hname. rewrite (run_fetched _ _ _ _ _ Hget).
  rewrite onCompanyResult_no_query
    by (try apply buildFilterGroups_no_value; done).
  destruct (update hubspotClient (objectId event) (status_update "primary")
              s1) as [s2 [e|[]]] eqn:Hu.
  - erewrite detached_rejected;
      [|by apply markAsPrimary_callback_rejected]. simpl.
    split; [done|]. split; [done|constructor].
  - erewrite detached_run; [|by apply markAsPrimary_callback_run]. simpl.
    split; [done|]. split.
    + intros s2' E. by injection E as <-.
    + apply Forall_singleton. split; [done|].
      unfold out_marked_primary. by simplify_map_eq.
Qed.

(** C2 (as the code has it).  With safe identifiers (non-negative integers
    up to 2^53 - 1, as numbers or as decimal digit strings): when the
    current record is the primary one and has duplicates, the duplicate
    merged is the first identifier of the search results, in the order the
    search returned them, whose numeric value differs from the current one:
    the first mutation marks it [merged], and no other record is marked
    [merged] or merged away.  It is the numerically least duplicate when the
    search returned its identifiers in ascending order. *)
Theorem merged_duplicate_is_first_result (event : Event) (s s1 s2 : Store)
    (c : Company) (sr : SearchResults) :
  getById hubspotClient (objectId event) ALL_PROPERTIES s = (s1, inr c) ->
  properties c !! DEDUPLICATION_STATUS_PROPERTY <> Some "merged" ->
  truthy (properties c !! DEDUPE_PROPERTY) = true ->
  doSearch hubspotClient (search_request c) s1 = (s2, inr sr) ->
  safe_id (objectId event) ->
  results_safe (results sr) ->
  uniqueIds (objectId event) (results sr) <> [] ->
  primaryId (objectId event) (results sr) = objectId event ->
  let d := nth 0 (matchingIds (objectId event) (results sr)) JUndefined in
  d ∈ uniqueIds (objectId event) (results sr)
  /\ (exists f rest,
        calls (run hubspotClient event s)
        = ok (get_request event) :: ok (ReqDoSearch (search_request c))
          :: {| request := ReqUpdate d (status_update "merged");
                failure := f |} :: rest)
  /\ Forall
       (fun call =>
          (forall i, request call = ReqUpdate i (status_update "merged") ->
                     i = d)
          /\ (forall p m, request call = merge_request p m ->
                          p = objectId event /\ m = d))
       (calls (run hubspotClient event s))
  /\ (StronglySorted num_le (List.map SearchObject.id (results sr)) ->
      forall i, i ∈ uniqueIds (objectId event) (results sr) -> num_le d i).
Proof.
  intros Hget Hm Hname Hsearch _ Hnum%results_safe_numeric Hsome Hcur d.
  assert (nth 0 (uniqueIds (objectId event) (results sr)) JUndefined = d)
    as Hd by apply spread_Set_first.
  rewrite (run_searched _ _ _ _ _ _ Hget Hm Hname Hsearch).
  rewrite onSearchResults_current_primary by done. rewrite Hd.
  split; [rewrite <- Hd; by apply first_elem|]. split; [|split].
  - apply absorb_first_call.
  - set (Pc := fun call : Call =>
                 (forall i, request call
                            = ReqUpdate i (status_update "merged") -> i = d)
                 /\ (forall p m, request call = merge_request p m ->
                                 p = objectId event /\ m = d)).
    apply (keeps_fst (trace_inv Pc (fun _ => True))).
    + eapply keeps_absorb; [apply trace_inv_stable|..|done];
        intros f; split; unfold request, merge_request.
      * intros i E. congruence.
      * intros p m E. discriminate E.
      * intros i E. discriminate E.
      * intros p m E. split; congruence.
      * intros i E.
        assert (status_update "primary" = status_update "merged") as Hx
          by congruence.
        by apply status_update_inj in Hx.
      * intros p m E. discriminate E.
    + split; [|constructor]. simpl.
      repeat constructor; intros; discriminate.
  - intros Hsorted i Hi. unfold d, matchingIds.
    apply filter_sorted_first; [done| |].
    + apply Forall_fmap. exact Hnum.
    + unfold uniqueIds in Hi. exact (proj1 (spread_Set_elem _ _) Hi).
Qed.

(** C10.  Every update request of every invocation carries a property map
    with the deduplication status as its only key, set to [primary] or to
    [merged]; the two marking helpers issue exactly one such request. *)
Theorem status_updates_write_one_property (event : Event) (s : Store) :
  Forall
    (fun call =>
       forall i input, request call = ReqUpdate i input ->
         (input = status_update "primary" \/ input = status_update "merged")
         /\ dom (update_properties input)
            = ({[ DEDUPLICATION_STATUS_PROPERTY ]} : gset string))
    (calls (run hubspotClient event s))
  /\ (forall i w,
        request <$> calls (markAsPrimary hubspotClient i None w).1
        = (request <$> calls w)
          ++ [ReqUpdate i (status_update "primary")])
  /\ (forall i w,
        request <$> calls (markAsPrimary hubspotClient i (Some callback) w).1
        = (request <$> calls w)
          ++ [ReqUpdate i (status_update "primary")])
  /\ (forall i w,
        request <$> calls (markAsMerged hubspotClient i w).1
        = (request <$> calls w)
          ++ [ReqUpdate i (status_update "merged")]).
Proof.
  split; [|split; [|split]].
  - set (Pc := fun call : Call =>
                 forall i input, request call = ReqUpdate i input ->
                   (input = status_update "primary"
                    \/ input = status_update "merged")
                   /\ dom (update_properties input)
                      = ({[ DEDUPLICATION_STATUS_PROPERTY ]} : gset string)).
    assert (trace_inv Pc (fun _ => True) (run hubspotClient event s))
      as [Hcalls _]; [|exact Hcalls].
    unfold run. apply keeps_fst; [|by split; constructor].
    eapply keeps_main; [apply trace_inv_stable| | | |done].
    + split; try done; intros; intros j input E;
        unfold request, merge_request in E; try discriminate E;
        assert (input = status_update "primary"
                \/ input = status_update "merged") as Hin
          by (first [left; congruence|right; congruence]);
        (split; [exact Hin|]);
        destruct Hin as [->| ->]; apply status_update_dom.
    + intros f j input E. discriminate E.
    + intros c f j input E. discriminate E.
  - intros i w.
    destruct (update hubspotClient i (status_update "primary") (store w))
      as [s' r] eqn:E.
    erewrite markAsPrimary_run by done. simpl. by rewrite fmap_app.
  - intros i w.
    destruct (update hubspotClient i (status_update "primary") (store w))
      as [s' [e|[]]] eqn:E.
    + erewrite markAsPrimary_callback_rejected by done. simpl.
      by rewrite fmap_app.
    + erewrite markAsPrimary_callback_run by done. simpl.
      by rewrite fmap_app.
  - intros i w.
    destruct (update hubspotClient i (status_update "merged") (store w))
      as [s' r] eqn:E.
    erewrite markAsMerged_run by done. simpl. by rewrite fmap_app.
Qed.
End Invocations.

(** ** More about the resolver and the query *)

(** X5.  With numeric identifiers the current record is chosen as primary
    exactly when every candidate has a numerically greater identifier. *)
Theorem current_primary_iff_least (objectId : JsVal)
    (rs : list SearchObject.t) :
  numeric objectId -> results_numeric rs ->
  strict_eq (primaryId objectId rs) objectId = true
  <-> forall i, i ∈ uniqueIds objectId rs -> num_lt objectId i.
Proof.
  intros Hcur Hrs.
  destruct (primaryId_spec objectId rs Hcur Hrs) as [Hin Hleast].
  unfold strict_eq. rewrite bool_decide_eq_true. split.
  - intros Hp i Hi. apply num_lt_of_le.
    + rewrite <- Hp at 1. apply Hleast, elem_of_app. by left.
    + apply uniqueIds_elem in Hi as [_ Hne]. destruct Hcur as [n Hn].
      rewrite Hn in *. apply num_strict_neq_numeric in Hne. congruence.
  - intros Hall. apply elem_of_app in Hin as [Hin|Hin].
    + apply Hall in Hin. apply num_lt_not_le in Hin. destruct Hin.
      apply Hleast, elem_of_app. right. apply list_elem_of_here.
    + by apply list_elem_of_singleton in Hin.
Qed.

Lemma present_secondary_elem (c : Company) (prop : string) :
  prop ∈ present_secondary c ->
  prop ∈ SECONDARY_PROPERTIES /\ truthy (properties c !! prop) = true.
Proof.
  unfold present_secondary. rewrite !list_elem_of_In, filter_In. tauto.
Qed.

(** X6.  The query never exceeds one group per secondary property, every
    group starts with the filter on the identifying property and has at most
    one more filter, and every filter is an equality on a property of the
    company whose value is not empty. *)
Theorem buildFilterGroups_bounds (c : Company) :
  (length (buildFilterGroups c) <= length SECONDARY_PROPERTIES)%nat
  /\ Forall
       (fun g =>
          (exists rest,
              filters g = eq_filter c DEDUPE_PROPERTY :: rest
              /\ (length rest <= 1)%nat)
          /\ Forall
               (fun f =>
                  operator f = "EQ"
                  /\ truthy (value f) = true
                  /\ value f = properties c !! propertyName f
                  /\ propertyName f ∈ DEDUPE_PROPERTY :: SECONDARY_PROPERTIES)
               (filters g))
       (buildFilterGroups c).
Proof.
  destruct (truthy (properties c !! DEDUPE_PROPERTY)) eqn:Hname.
  2:{ rewrite buildFilterGroups_no_value by done.
      split; [simpl; lia|constructor]. }
  rewrite buildFilterGroups_query by done. unfold spec_query.
  assert (length (present_secondary c) <= length SECONDARY_PROPERTIES)%nat
    as Hlen by apply filter_length_le.
  pose proof (present_secondary_elem c) as Hpresent.
  assert (operator (eq_filter c DEDUPE_PROPERTY) = "EQ"
          /\ truthy (value (eq_filter c DEDUPE_PROPERTY)) = true
          /\ value (eq_filter c DEDUPE_PROPERTY)
             = properties c !! propertyName (eq_filter c DEDUPE_PROPERTY)
          /\ propertyName (eq_filter c DEDUPE_PROPERTY)
             ∈ DEDUPE_PROPERTY :: SECONDARY_PROPERTIES) as Hbase.
  { split_and!; [done|exact Hname|done|apply list_elem_of_here]. }
  destruct (present_secondary c) as [|prop present] eqn:E.
  - split; [simpl; lia|]. apply Forall_singleton. split.
    + exists []. split; [done|simpl; lia].
    + by apply Forall_singleton.
  - split; [by rewrite length_map|].
    apply Forall_fmap, Forall_forall. intros q Hq. simpl. split.
    + exists [eq_filter c q]. split; [done|simpl; lia].
    + apply Forall_cons_2; [done|]. apply Forall_singleton.
      destruct (Hpresent q Hq) as [Hsec Htruthy].
      split_and!; [done|exact Htruthy|done|by apply list_elem_of_further].
Qed.

Lemma filter_sublist (f : JsVal -> bool) (l : list JsVal) :
  List.filter f l `sublist_of` l.
Proof.
  induction l as [|x l IH]; simpl; [done|].
  destruct (f x); [by apply sublist_skip|by apply sublist_cons].
Qed.

Lemma set_add_fold_sublist (l acc : list JsVal) :
  exists k, fold_left set_add l acc = acc ++ k /\ k `sublist_of` l.
Proof.
  revert acc. induction l as [|y l IH]; intros acc; simpl.
  - exists []. by rewrite app_nil_r.
  - destruct (IH (set_add acc y)) as (k & -> & Hk). unfold set_add.
    case_bool_decide.
    + exists k. split; [done|by apply sublist_cons].
    + exists (y :: k). rewrite <- app_assoc. split; [done|].
      by apply sublist_skip.
Qed.

Lemma set_add_fold_NoDup_id (l acc : list JsVal) :
  NoDup (acc ++ l) -> fold_left set_add l acc = acc ++ l.
Proof.
  revert acc. induction l as [|y l IH]; intros acc Hnd; simpl.
  - by rewrite app_nil_r.
  - assert (y ∉ acc) as Hy.
    { apply NoDup_app in Hnd as (_ & Hdisj & _). intros Hin.
      apply (Hdisj y Hin), list_elem_of_here. }
    unfold set_add. rewrite bool_decide_eq_false_2 by done.
    rewrite IH; rewrite <- app_assoc; done.
Qed.

(** X7.  The candidate list keeps the order of the search results: it is
    obtained from their identifiers by leaving some out, and when the search
    returns no identifier twice it is exactly the identifiers that differ
    numerically from the current one, in the order returned. *)
Theorem uniqueIds_keeps_order (objectId : JsVal) (rs : list SearchObject.t) :
  uniqueIds objectId rs `sublist_of` List.map SearchObject.id rs
  /\ (NoDup (List.map SearchObject.id rs) ->
      uniqueIds objectId rs = matchingIds objectId rs).
Proof.
  split.
  - unfold uniqueIds, spread_Set.
    destruct (set_add_fold_sublist (matchingIds objectId rs) [])
      as (k & -> & Hk).
    simpl. etrans; [exact Hk|]. apply filter_sublist.
  - intros Hnd. unfold uniqueIds, spread_Set.
    rewrite set_add_fold_NoDup_id; [done|].
    simpl. unfold matchingIds.
    apply NoDup_ListNoDup, List.NoDup_filter, NoDup_ListNoDup. exact Hnd.
Qed.

Lemma array_sort_ascending (l : list JsVal) :
  StronglySorted num_le l -> array_sort l = l.
Proof.
  induction 1 as [|x l Hs IH Hx]; simpl; [done|].
  rewrite IH. destruct l as [|y l]; [done|]. simpl.
  apply Forall_cons in Hx as [Hxy _].
  unfold num_le in Hxy. unfold sort_order, compareFn.
  destruct (Number x), (Number y); try tauto. simpl.
  by rewrite (proj2 (Z.leb_le _ _)) by lia.
Qed.

(** X8.  With safe identifiers (non-negative integers up to 2^53 - 1, as
    numbers or as decimal digit strings) the sorted array holds the candidates and
    the current identifier, each once, in ascending numeric order; an array
    that is already ascending is left as it is. *)
Theorem allCompanyIds_sorted (objectId : JsVal) (rs : list SearchObject.t) :
  safe_id objectId -> results_safe rs ->
  allCompanyIds objectId rs ≡ₚ uniqueIds objectId rs ++ [objectId]
  /\ NoDup (allCompanyIds objectId rs)
  /\ StronglySorted num_le (allCompanyIds objectId rs)
  /\ (StronglySorted num_le (uniqueIds objectId rs ++ [objectId]) ->
      allCompanyIds objectId rs = uniqueIds objectId rs ++ [objectId]).
Proof.
  intros Hcur%safe_id_numeric Hrs%results_safe_numeric. unfold allCompanyIds.
  split; [apply array_sort_Permutation|]. split; [|split].
  - rewrite array_sort_Permutation. apply NoDup_app. split_and!.
    + apply spread_Set_NoDup.
    + intros i Hi Hi'. apply list_elem_of_singleton in Hi' as ->.
      apply uniqueIds_elem in Hi as [_ Hne]. destruct Hcur as [n Hn].
      rewrite Hn in Hne. by apply num_strict_neq_numeric in Hne.
    + apply NoDup_singleton.
  - apply array_sort_sorted, Forall_app. split.
    + by apply uniqueIds_numeric.
    + by apply Forall_singleton.
  - apply array_sort_ascending.
Qed.

(** ** Every end of an invocation *)

Section Ends.
Context (hubspotClient : Client Store).

Lemma mark_end_complete (w0 : World Store) (i : JsVal) :
  mark_end w0 i
    (detached (markAsPrimary hubspotClient i (Some callback)) w0).1.
Proof.
  destruct (update hubspotClient i (status_update "primary") (store w0))
    as [s [e|[]]] eqn:Hu.
  - erewrite detached_rejected; [|by apply markAsPrimary_callback_rejected].
    apply mark_rejected.
  - erewrite detached_run; [|by apply markAsPrimary_callback_run].
    apply mark_reported.
Qed.

Lemma absorb_end_complete (w0 : World Store) (p m : JsVal)
    (out : gmap string JsVal) :
  absorb_end w0 p m out (absorb hubspotClient p m out w0).1.
Proof.
  destruct (update hubspotClient m (status_update "merged") (store w0))
    as [s1 [e|[]]] eqn:H1.
  { erewrite absorb_mark_rejected by done. apply absorb_mark_fails. }
  destruct (apiRequest hubspotClient
              {| method := "POST";
                 path := "/crm/v3/objects/companies/merge";
                 body := {| primaryObjectId := p;
                            objectIdToMerge := m |} |} s1)
    as [s2 [e|[]]] eqn:H2.
  { erewrite absorb_merge_rejected by done. apply absorb_merge_fails. }
  destruct (update hubspotClient p (status_update "primary") s2)
    as [s3 [e|[]]] eqn:H3.
  { erewrite absorb_primary_rejected by done. apply absorb_primary_fails. }
  erewrite absorb_run by done.
  pose proof (absorb_reported w0 p m out s1 s2 s3) as Hend.
  unfold with_output, with_call in Hend. simpl in Hend.
  rewrite <- !app_assoc in Hend. exact Hend.
Qed.

(** The case analysis of [exports.main], once and for all. *)
Lemma run_end_complete (event : Event) (s : Store) :
  run_end hubspotClient event s (run hubspotClient event s).
Proof.
  destruct (getById hubspotClient (objectId event) ALL_PROPERTIES s)
    as [s1 [e|c]] eqn:Hget.
  { rewrite (run_fetch_rejected _ _ _ _ _ Hget). by apply end_fetch_rejected. }
  rewrite (run_fetched _ _ _ _ _ Hget). fold (fetched event s1).
  destruct (decide (properties c !! DEDUPLICATION_STATUS_PROPERTY
                    = Some "merged")) as [Hm|Hm].
  { rewrite onCompanyResult_merged by done.
    by eapply end_already_merged. }
  destruct (truthy (properties c !! DEDUPE_PROPERTY)) eqn:Hname.
  - rewrite onCompanyResult_search
      by (try apply buildFilterGroups_nonempty; done).
    destruct (doSearch hubspotClient (search_request c) s1)
      as [s2 [e|sr]] eqn:Hsearch.
    { erewrite search_rejected by done. by eapply end_search_rejected. }
    erewrite search_fulfilled by done.
    change (with_call (fetched event s1) s2
              (ok (ReqDoSearch (search_request c))))
      with (searched event c s2).
    destruct (decide (uniqueIds (objectId event) (results sr) = []))
      as [Hnone|Hsome].
    { rewrite onSearchResults_no_duplicates by done.
      eapply end_no_duplicates; eauto. apply mark_end_complete. }
    destruct (decide (primaryId (objectId event) (results sr)
                      = objectId event)) as [Hcur|Hother].
    + rewrite onSearchResults_current_primary by done.
      eapply end_current_primary; eauto. apply absorb_end_complete.
    + rewrite onSearchResults_other_primary by done.
      eapply end_other_primary; eauto. apply absorb_end_complete.
  - rewrite onCompanyResult_no_query
      by (try apply buildFilterGroups_no_value; done).
    eapply end_no_query; eauto. apply mark_end_complete.
Qed.

(** The first remote call of an invocation is the fetch. *)
Lemma run_protocol_first (event : Event) (s : Store) :
  exists f rest,
    calls (run hubspotClient event s)
    = {| request := get_request event; failure := f |} :: rest.
Proof.
  pose proof (run_end_complete event s) as Hend.
  remember (run hubspotClient event s) as w eqn:Hw. clear Hw.
  destruct Hend as [s1 e _|s1 c _ _|s1 c w _ _ _ Hmark|s1 s2 c e _ _ _ _
                   |s1 s2 c sr w _ _ _ _ _ Hmark
                   |s1 s2 c sr w _ _ _ _ _ _ Habs
                   |s1 s2 c sr w _ _ _ _ _ Habs];
    try destruct Hmark; try destruct Habs; simpl; eauto.
Qed.


(** X2.  Every invocation ends in exactly one of two ways: no remote call
    was rejected and the callback was invoked exactly once; or the last
    remote call was rejected, the only one to be, the callback was not
    invoked, and that rejection is the one left unhandled. *)
Theorem run_reports_once_or_rejects (event : Event) (s : Store) :
  (Forall succeeded (calls (run hubspotClient event s))
   /\ (exists o, outputs (run hubspotClient event s) = [o])
   /\ unhandled (run hubspotClient event s) = [])
  \/ (exists cs c e,
         calls (run hubspotClient event s) = cs ++ [c]
         /\ Forall succeeded cs /\ failure c = Some e
         /\ outputs (run hubspotClient event s) = []
         /\ unhandled (run hubspotClient event s) = [e]).
Proof.
  pose proof (run_end_complete event s) as Hend.
  remember (run hubspotClient event s) as w eqn:Hw. clear Hw.
  destruct Hend as [s1 e _|s1 c _ _|s1 c w _ _ _ Hmark|s1 s2 c e _ _ _ _
                   |s1 s2 c sr w _ _ _ _ _ Hmark
                   |s1 s2 c sr w _ _ _ _ _ _ Habs
                   |s1 s2 c sr w _ _ _ _ _ Habs];
    try destruct Hmark; try destruct Habs; simpl;
    first
      [ left; split_and!; [repeat constructor|eauto|done]
      | right; eexists [], _, _; split_and!; [done|repeat constructor|done..]
      | right; eexists [_], _, _; split_and!; [done|repeat constructor|done..]
      | right; eexists [_; _], _, _;
        split_and!; [done|repeat constructor|done..]
      | right; eexists [_; _; _], _, _;
        split_and!; [done|repeat constructor|done..]
      | right; eexists [_; _; _; _], _, _;
        split_and!; [done|repeat constructor|done..] ].
Qed.

(** X3.  With a safe current identifier and a remote whose search results
    carry safe identifiers (non-negative integers up to 2^53 - 1, as numbers
    or as decimal digit strings), every merge request names the current
    record on one side, and its two identifiers read as two different
    numbers: no record is merged into itself, whatever the spelling of its
    identifier. *)
Theorem merge_never_into_itself (event : Event) (s : Store) :
  safe_id (objectId event) ->
  (forall req s1 s2 sr,
      doSearch hubspotClient req s1 = (s2, inr sr) ->
      results_safe (results sr)) ->
  Forall
    (fun call =>
       forall p m, request call = merge_request p m ->
         (p = objectId event \/ m = objectId event)
         /\ exists x y, Number p = Some x /\ Number m = Some y /\ x <> y)
    (calls (run hubspotClient event s)).
Proof.
  intros Hnum%safe_id_numeric Hremote.
  assert (forall req s1 s2 sr i,
             doSearch hubspotClient req s1 = (s2, inr sr) ->
             i ∈ uniqueIds (objectId event) (results sr) ->
             exists x y, Number i = Some x
                         /\ Number (objectId event) = Some y /\ x <> y)
    as Hdiff.
  { intros req s1 s2 sr i Hs Hi.
    apply (uniqueIds_distinct _ (results sr)); [done| |done].
    apply results_safe_numeric. by eapply Hremote. }
  pose proof (run_end_complete event s) as Hend.
  remember (run hubspotClient event s) as w eqn:Hw. clear Hw.
  destruct Hend as [s1 e _|s1 c _ _|s1 c w _ _ _ Hmark|s1 s2 c e _ _ _ _
                   |s1 s2 c sr w _ _ _ _ _ Hmark
                   |s1 s2 c sr w _ _ _ Hsearch Hsome Hcur Habs
                   |s1 s2 c sr w _ _ _ Hsearch Hother Habs];
    try destruct Hmark; try destruct Habs; simpl;
    repeat first [apply Forall_nil_2|apply Forall_cons_2];
    intros p m E; unfold request, ok, failed, get_request, merge_request in E;
    try discriminate E; injection E as <- <-.
  all: first
    [ split; [by left|];
      assert (nth 0 (uniqueIds (objectId event) (results sr)) JUndefined
              ∈ uniqueIds (objectId event) (results sr)) as Hd
        by (by apply first_elem);
      destruct (Hdiff _ _ _ _ _ Hsearch Hd) as (x & y & Hx & Hy & Hne);
      exists y, x; split_and!; [done|done|congruence]
    | split; [by right|];
      assert (primaryId (objectId event) (results sr)
              ∈ uniqueIds (objectId event) (results sr)) as Hp
        by (pose proof (primaryId_elem (objectId event) (results sr)) as Hin;
            apply elem_of_app in Hin as [Hin|Hin]; [done|];
            by apply list_elem_of_singleton in Hin);
      exact (Hdiff _ _ _ _ _ Hsearch Hp) ].
Qed.

(** X4.  When the current identifier is numeric and the remote answers
    searches with numeric identifiers, every merge request keeps the record
    with the numerically smaller identifier and merges the other away. *)
Theorem merge_keeps_lowest (event : Event) (s : Store) :
  numeric (objectId event) ->
  (forall req s1 s2 sr,
      doSearch hubspotClient req s1 = (s2, inr sr) ->
      results_numeric (results sr)) ->
  Forall
    (fun call => forall p m, request call = merge_request p m -> num_lt p m)
    (calls (run hubspotClient event s)).
Proof.
  intros Hnum Hremote.
  assert (forall a b, num_le a b -> Number a <> Number b -> num_lt a b)
    as Hstrict.
  { intros a b. unfold num_le, num_lt.
    destruct (Number a), (Number b); try tauto.
    intros Hle Hne. assert (z <> z0) by congruence. lia. }
  assert (forall sr i, i ∈ uniqueIds (objectId event) (results sr) ->
                       Number i <> Number (objectId event)) as Hdiff.
  { intros sr i Hi. apply uniqueIds_elem in Hi as [_ Hne].
    destruct Hnum as [n Hn]. rewrite Hn in *.
    by apply num_strict_neq_numeric. }
  pose proof (run_end_complete event s) as Hend.
  remember (run hubspotClient event s) as w eqn:Hw. clear Hw.
  destruct Hend as [s1 e _|s1 c _ _|s1 c w _ _ _ Hmark|s1 s2 c e _ _ _ _
                   |s1 s2 c sr w _ _ _ _ _ Hmark
                   |s1 s2 c sr w _ _ _ Hsearch Hsome Hcur Habs
                   |s1 s2 c sr w _ _ _ Hsearch Hother Habs];
    try destruct Hmark; try destruct Habs; simpl;
    repeat first [apply Forall_nil_2|apply Forall_cons_2];
    intros p m E; unfold request, ok, failed, get_request, merge_request in E;
    try discriminate E; injection E as <- <-;
    destruct (primaryId_spec (objectId event) (results sr) Hnum
                (Hremote _ _ _ _ Hsearch)) as [Hin Hleast].
  all: first
    [ apply Hstrict;
      [ rewrite <- Hcur at 1; apply Hleast, elem_of_app; left;
        by apply first_elem
      | intros Heq; symmetry in Heq; revert Heq;
        apply (Hdiff sr); by apply first_elem ]
    | apply Hstrict;
      [ apply Hleast, elem_of_app; right; apply list_elem_of_here
      | apply (Hdiff sr);
        apply elem_of_app in Hin as [Hin|Hin]; [done|];
        by apply list_elem_of_singleton in Hin ] ].
Qed.

(** X9.  Every payload handed to the callback is one of four: the
    already-merged payload; the marked-primary payload, always for the
    current record; the merged-duplicate payload, with a count of remaining
    duplicates that is never negative; or the merged-into-primary payload,
    whose primary is never the current record. *)
Theorem payload_catalogue (event : Event) (s : Store) :
  Forall
    (fun o =>
       o = out_already_merged event
       \/ o = out_marked_primary (objectId event)
       \/ (exists d n, 0 <= n /\ o = out_merged_duplicate event d n)
       \/ (exists p, p <> objectId event
                     /\ o = out_merged_into_primary event p))
    (outputs (run hubspotClient event s)).
Proof.
  pose proof (run_end_complete event s) as Hend.
  remember (run hubspotClient event s) as w eqn:Hw. clear Hw.
  destruct Hend as [s1 e _|s1 c _ _|s1 c w _ _ _ Hmark|s1 s2 c e _ _ _ _
                   |s1 s2 c sr w _ _ _ _ _ Hmark
                   |s1 s2 c sr w _ _ _ _ Hsome Hcur Habs
                   |s1 s2 c sr w _ _ _ _ Hother Habs];
    try destruct Hmark; try destruct Habs; simpl;
    first [apply Forall_nil_2|apply Forall_singleton].
  - by left.
  - right. by left.
  - right. by left.
  - do 2 right. left. eexists _, _. split; [|done].
    destruct (uniqueIds (objectId event) (results sr)); [done|].
    rewrite length_cons. lia.
  - do 3 right. by eexists.
Qed.

(** X10.  A record is written to only after successful reads: before any
    status update or merge request, the fetch has succeeded, and so has
    every other call issued before it. *)
Theorem writes_follow_successful_reads (event : Event) (s : Store) :
  forall cs c cs' i,
    calls (run hubspotClient event s) = cs ++ c :: cs' ->
    mutates (request c) i ->
    Forall succeeded cs
    /\ exists rest, cs = ok (get_request event) :: rest.
Proof.
  intros cs c cs' i Hsplit Hmut.
  assert (Forall succeeded cs) as Hok.
  { destruct (run_Settled hubspotClient event s)
      as [(Hall & _ & _)|(e & (cs0 & c0 & Hcalls & Hall & _ & _) & _)].
    - rewrite Hsplit in Hall. by apply Forall_app in Hall as [Hall _].
    - rewrite Hsplit in Hcalls. clear Hsplit.
      induction cs' as [|x cs1 _] using rev_ind.
      + by apply app_inj_tail in Hcalls as [-> _].
      + change (cs ++ c :: cs1 ++ [x]) with (cs ++ (c :: cs1) ++ [x])
          in Hcalls.
        rewrite app_assoc in Hcalls. apply app_inj_tail in Hcalls as [<- _].
        by apply Forall_app in Hall as [Hall _]. }
  split; [done|].
  destruct cs as [|c1 cs1].
  - exfalso. simpl in Hsplit.
    destruct (run_protocol_first event s) as (f & rest & Hfirst).
    rewrite Hfirst in Hsplit. injection Hsplit as <- _. exact Hmut.
  - destruct (run_protocol_first event s) as (f & rest & Hfirst).
    rewrite Hfirst in Hsplit. injection Hsplit as <- _.
    apply Forall_cons in Hok as [Hc _]. unfold succeeded in Hc.
    simpl in Hc. subst f. by exists cs1.
Qed.
End Ends.

End Verification.

(** * The previous version of the script *)

Section V3Facts.
Context {Store : Type} (hubspotClient : V3.Client Store).

(** The case analysis of [exports.main] of version 3. *)
Lemma v3_run_end_complete (event : Event) (s : Store) :
  V3.run_end hubspotClient event s (V3.run hubspotClient event s).
Proof.
  unfold V3.run, V3.main, V3.detached, V3.catch_, V3.then_, V3.remote.
  cbn [V3.store V3.start V3.calls V3.outputs V3.unhandled].
  destruct (V3.getById hubspotClient (objectId event)
              (V3.DEDUPE_PROPERTY :: V3.SECONDARY_PROPERTIES) s)
    as [s1 [e|c]] eqn:Hget.
  { by apply V3.end_fetch_rejected. }
  unfold V3.onCompanyResult, V3.detached, V3.catch_, V3.then_, V3.remote.
  cbn [V3.store V3.calls V3.outputs V3.unhandled].
  change {| V3.filterGroups := _ |} with (V3.search_request c).
  destruct (V3.doSearch hubspotClient (V3.search_request c) s1)
    as [s2 [e|sr]] eqn:Hsearch.
  { by eapply V3.end_search_rejected. }
  unfold V3.onSearchResults.
  destruct (matchingIds (objectId event) (results sr)) as [|i ids] eqn:Hids.
  { by eapply V3.end_no_duplicates. }
  assert (matchingIds (objectId event) (results sr) <> []) as Hsome
    by (by rewrite Hids).
  destruct ids as [|j ids];
    cbn [length Nat.eqb Nat.ltb Nat.leb];
    unfold V3.detached, V3.catch_, V3.then_, V3.remote;
    cbn [V3.store V3.calls V3.outputs V3.unhandled].
  - destruct (V3.apiRequest hubspotClient _ s2) as [s3 [e|[]]] eqn:Hmerge.
    + pose proof (V3.end_merge_rejected hubspotClient event s s1 s2 s3 c sr e
                    Hget Hsearch Hsome) as Hend.
      rewrite Hids in Hend. exact Hend.
    + pose proof (V3.end_merged hubspotClient event s s1 s2 s3 c sr
                    Hget Hsearch Hsome) as Hend.
      rewrite Hids in Hend. exact Hend.
  - destruct (V3.apiRequest hubspotClient _ s2) as [s3 [e|[]]] eqn:Hmerge.
    + pose proof (V3.end_merge_rejected hubspotClient event s s1 s2 s3 c sr e
                    Hget Hsearch Hsome) as Hend.
      rewrite Hids in Hend. exact Hend.
    + pose proof (V3.end_merged hubspotClient event s s1 s2 s3 c sr
                    Hget Hsearch Hsome) as Hend.
      rewrite Hids in Hend. exact Hend.
Qed.

(** X11.  In version 3 every invocation invokes the callback exactly once
    and leaves no rejection unhandled.  When no remote call was rejected the
    payload has no [error] field; when one was, it is the last call and the
    payload is the error payload, its [error] field carrying the message of
    the rejection. *)
Theorem v3_reports_exactly_once (event : Event) (s : Store) :
  V3.unhandled (V3.run hubspotClient event s) = []
  /\ exists o,
       V3.outputs (V3.run hubspotClient event s) = [o]
       /\ ((Forall (fun c => V3.failure c = None)
              (V3.calls (V3.run hubspotClient event s))
            /\ o !! "error" = None)
           \/ (exists cs c e,
                  V3.calls (V3.run hubspotClient event s) = cs ++ [c]
                  /\ Forall (fun c => V3.failure c = None) cs
                  /\ V3.failure c = Some e
                  /\ o = V3.out_error e
                  /\ o !! "result" = Some (JStr "Error")
                  /\ o !! "error" = Some (JStr (message e)))).
Proof.
  pose proof (v3_run_end_complete event s) as Hend.
  remember (V3.run hubspotClient event s) as w eqn:Hw. clear Hw.
  assert (forall e, V3.out_error e !! "result" = Some (JStr "Error")
                    /\ V3.out_error e !! "error" = Some (JStr (message e)))
    as Herr.
  { intros e. unfold V3.out_error. by simplify_map_eq. }
  destruct Hend as [s1 e _|s1 s2 c e _ _|s1 s2 c sr _ _ _
                   |s1 s2 s3 c sr e _ _ _|s1 s2 s3 c sr _ _ _];
    (split; [done|]); eexists; (split; [done|]); simpl.
  - right. exists [], (V3.failed (V3.get_request event) e), e.
    destruct (Herr e). split_and!; try done.
  - right.
    exists [V3.ok (V3.get_request event)],
      (V3.failed (V3.ReqDoSearch (V3.search_request c)) e), e.
    destruct (Herr e). split_and!; try done. repeat constructor.
  - left. split; [repeat constructor|].
    unfold V3.out_no_duplicates. by simplify_map_eq.
  - right.
    exists [V3.ok (V3.get_request event);
            V3.ok (V3.ReqDoSearch (V3.search_request c))],
      (V3.failed
         (V3.merge_request
            (V3.merge_target (matchingIds (objectId event) (results sr)))
            (objectId event)) e), e.
    destruct (Herr e). split_and!; try done. repeat constructor.
  - left. split; [repeat constructor|].
    unfold V3.out_merged. case_match; by simplify_map_eq.
Qed.

Lemma v3_merge_target_elem (ids : list JsVal) :
  ids <> [] -> V3.merge_target ids ∈ ids.
Proof.
  intros Hsome. unfold V3.merge_target.
  rewrite <- (array_sort_Permutation ids) at 2.
  destruct (array_sort ids) as [|p rest] eqn:E.
  - pose proof (array_sort_Permutation ids) as Hperm. rewrite E in Hperm.
    by apply Permutation_nil_l in Hperm.
  - apply list_elem_of_here.
Qed.

(** X12.  The requests of an invocation of version 3, by the responses of
    the remote.  When the fetch is rejected, the fetch is the only request.
    When it returns a company, the search is issued whatever the identifying
    value is, absent included, with one equality filter on it.  When the
    search is rejected, or returns safe identifiers (non-negative integers
    up to 2^53 - 1, as numbers or as decimal digit strings) none of which
    differs numerically from the safe current identifier, nothing follows.
    When it returns safe identifiers of which one differs, exactly one merge
    request follows: it merges the current record away, into one of the
    matching records, whose identifier reads as another number. *)
Theorem v3_protocol (event : Event) (s : Store) :
  (forall s1 e,
      V3.getById hubspotClient (objectId event)
        (V3.DEDUPE_PROPERTY :: V3.SECONDARY_PROPERTIES) s = (s1, inl e) ->
      V3.request <$> V3.calls (V3.run hubspotClient event s)
      = [V3.get_request event])
  /\ (forall s1 c,
        V3.getById hubspotClient (objectId event)
          (V3.DEDUPE_PROPERTY :: V3.SECONDARY_PROPERTIES) s = (s1, inr c) ->
        (exists more,
            V3.request <$> V3.calls (V3.run hubspotClient event s)
            = [V3.get_request event; V3.ReqDoSearch (V3.search_request c)]
              ++ more)
        /\ V3.filterGroups (V3.search_request c)
           = [{| filters := [{| propertyName := "name"; operator := "EQ";
                                value := properties c !! "name" |}] |}]
        /\ (forall s2 e,
              V3.doSearch hubspotClient (V3.search_request c) s1
              = (s2, inl e) ->
              V3.request <$> V3.calls (V3.run hubspotClient event s)
              = [V3.get_request event; V3.ReqDoSearch (V3.search_request c)])
        /\ (forall s2 sr,
              V3.doSearch hubspotClient (V3.search_request c) s1
              = (s2, inr sr) ->
              safe_id (objectId event) ->
              results_safe (results sr) ->
              let ids := matchingIds (objectId event) (results sr) in
              (ids = [] ->
               V3.request <$> V3.calls (V3.run hubspotClient event s)
               = [V3.get_request event;
                  V3.ReqDoSearch (V3.search_request c)])
              /\ (ids <> [] ->
                  V3.request <$> V3.calls (V3.run hubspotClient event s)
                  = [V3.get_request event;
                     V3.ReqDoSearch (V3.search_request c);
                     V3.merge_request (V3.merge_target ids) (objectId event)]
                  /\ V3.merge_target ids ∈ ids
                  /\ exists x y,
                       Number (V3.merge_target ids) = Some x
                       /\ Number (objectId event) = Some y /\ x <> y))).
Proof.
  pose proof (v3_run_end_complete event s) as Hend.
  remember (V3.run hubspotClient event s) as w eqn:Hw. clear Hw.
  split.
  { intros s1 e Hget.
    destruct Hend as [s1' e' Hget'|s1' s2' c' e' Hget' _|s1' s2' c' sr' Hget' _ _
                     |s1' s2' s3 c' sr' e' Hget' _ _|s1' s2' s3 c' sr' Hget' _ _];
      rewrite Hget in Hget'; by simplify_eq. }
  intros s1 c Hget. split; [|split; [done|split]].
  - destruct Hend as [s1' e' Hget'|s1' s2' c' e' Hget' _|s1' s2' c' sr' Hget' _ _
                     |s1' s2' s3 c' sr' e' Hget' _ _|s1' s2' s3 c' sr' Hget' _ _];
      rewrite Hget in Hget'; simplify_eq; simpl; by eexists.
  - intros s2 e Hsearch.
    destruct Hend as [s1' e' Hget'|s1' s2' c' e' Hget' Hsearch'
                     |s1' s2' c' sr' Hget' Hsearch' _
                     |s1' s2' s3 c' sr' e' Hget' Hsearch' _
                     |s1' s2' s3 c' sr' Hget' Hsearch' _];
      rewrite Hget in Hget'; simplify_eq;
      rewrite Hsearch in Hsearch'; by simplify_eq.
  - intros s2 sr Hsearch Hcur%safe_id_numeric Hrs%results_safe_numeric ids.
    split.
    + intros Hnone.
      destruct Hend as [s1' e' Hget'|s1' s2' c' e' Hget' Hsearch'
                       |s1' s2' c' sr' Hget' Hsearch' _
                       |s1' s2' s3 c' sr' e' Hget' Hsearch' Hsome'
                       |s1' s2' s3 c' sr' Hget' Hsearch' Hsome'];
        rewrite Hget in Hget'; simplify_eq;
        rewrite Hsearch in Hsearch'; by simplify_eq.
    + intros Hsome.
      pose proof (v3_merge_target_elem _ Hsome) as Hin.
      split; [|split; [done|]].
      * destruct Hend as [s1' e' Hget'|s1' s2' c' e' Hget' Hsearch'
                         |s1' s2' c' sr' Hget' Hsearch' Hnone'
                         |s1' s2' s3 c' sr' e' Hget' Hsearch' _
                         |s1' s2' s3 c' sr' Hget' Hsearch' _];
          rewrite Hget in Hget'; simplify_eq;
          rewrite Hsearch in Hsearch'; by simplify_eq.
      * by apply (matchingIds_distinct _ (results sr)).
Qed.

(** X13.  In version 3, when the fetch and the search succeed, the
    identifiers are safe (non-negative integers up to 2^53 - 1, as numbers
    or as decimal digit strings) and at least one result differs numerically
    from the current identifier, the third and last call merges the current
    record into the matching record with the numerically least identifier,
    whether or not that identifier is smaller than the current one. *)
Theorem v3_merges_into_lowest_match (event : Event) (s s1 s2 : Store)
    (c : Company) (sr : SearchResults) :
  V3.getById hubspotClient (objectId event)
    (V3.DEDUPE_PROPERTY :: V3.SECONDARY_PROPERTIES) s = (s1, inr c) ->
  V3.doSearch hubspotClient (V3.search_request c) s1 = (s2, inr sr) ->
  safe_id (objectId event) ->
  results_safe (results sr) ->
  matchingIds (objectId event) (results sr) <> [] ->
  exists p,
    V3.request <$> V3.calls (V3.run hubspotClient event s)
    = [V3.get_request event; V3.ReqDoSearch (V3.search_request c);
       V3.merge_request p (objectId event)]
    /\ p ∈ matchingIds (objectId event) (results sr)
    /\ (exists x y,
          Number p = Some x /\ Number (objectId event) = Some y /\ x <> y)
    /\ forall i, i ∈ matchingIds (objectId event) (results sr) -> num_le p i.
Proof.
  intros Hget Hsearch Hcur%safe_id_numeric Hrs%results_safe_numeric Hsome.
  exists (V3.merge_target (matchingIds (objectId event) (results sr))).
  assert (Forall numeric (matchingIds (objectId event) (results sr))) as Hnum.
  { apply Forall_forall. intros i Hi.
    apply matchingIds_elem in Hi as [(o & Ho & <-) _].
    by eapply Forall_forall in Hrs. }
  pose proof (v3_merge_target_elem _ Hsome) as Hin.
  split; [|split; [done|split]].
  - pose proof (v3_run_end_complete event s) as Hend.
    remember (V3.run hubspotClient event s) as w eqn:Hw. clear Hw.
    destruct Hend as [s1' e Hget'|s1' s2' c' e Hget' Hsearch'
                     |s1' s2' c' sr' Hget' Hsearch' Hnone
                     |s1' s2' s3 c' sr' e Hget' Hsearch' _
                     |s1' s2' s3 c' sr' Hget' Hsearch' _];
      rewrite Hget in Hget'; try discriminate Hget';
      injection Hget' as <- <-;
      rewrite Hsearch in Hsearch'; try discriminate Hsearch';
      injection Hsearch' as <- <-; done.
  - by apply (matchingIds_distinct _ (results sr)).
  - unfold V3.merge_target in *.
    destruct (array_sort (matchingIds (objectId event) (results sr)))
      as [|p rest] eqn:E.
    + pose proof (array_sort_Permutation
                    (matchingIds (objectId event) (results sr))) as Hperm.
      rewrite E in Hperm. by apply Permutation_nil_l in Hperm.
    + by destruct (array_sort_first _ p rest Hnum E).
Qed.
End V3Facts.

(** * Concrete invocations *)

(** Concrete identifiers are safe by computation. *)
Ltac safe_ids :=
  repeat first [apply Forall_nil_2 | apply Forall_cons_2];
  vm_compute; split; discriminate.

(** The comparison is numeric: as strings, "10" comes before "9". *)
Example primaryId_nine_before_ten :
  primaryId (JStr "10") (results (results_of [JStr "9"])) = JStr "9"
  /\ primaryId (JStr "9") (results (results_of [JStr "10"])) = JStr "9".
Proof. by vm_compute. Qed.

(** C3 at the identifiers of the specification's example. *)
Lemma primaryId_numeric_minimum_witness :
  let rs := results (results_of [JStr "92526"; JStr "73493"; JStr "60888"]) in
  num_le (primaryId (JNum 24273) rs) (JStr "60888")
  /\ primaryId (JNum 24273) (reverse rs) = primaryId (JNum 24273) rs.
Proof.
  intros rs.
  assert (safe_id (JNum 24273)) as Hcur by safe_ids.
  assert (results_safe rs) as Hrs by safe_ids.
  destruct (primaryId_numeric_minimum (JNum 24273) rs Hcur Hrs)
    as (_ & Hleast & Hperm).
  split.
  - apply Hleast. left. vm_compute. repeat constructor.
  - apply (Hperm (reverse rs)).
    + symmetry. apply reverse_Permutation.
    + intros a b Ha Hb.
      vm_compute in Ha, Hb.
      repeat (apply elem_of_cons in Ha as [->|Ha]);
        repeat (apply elem_of_cons in Hb as [->|Hb]);
        try (by apply elem_of_nil in Ha); try (by apply elem_of_nil in Hb);
        vm_compute; congruence.
Defined.

(** C9 on results that repeat an identifier and hold the current one in both
    forms. *)
Lemma uniqueIds_excludes_current_witness :
  let rs := results (results_of [JStr "100"; JStr "200"; JNum 100;
                                 JStr "200"]) in
  NoDup (uniqueIds (JNum 100) rs)
  /\ (JNum 100 ∉ uniqueIds (JNum 100) rs)
  /\ uniqueIds (JNum 100) rs = [JStr "200"].
Proof.
  intros rs.
  assert (safe_id (JNum 100)) as Hcur by safe_ids.
  assert (results_safe rs) as Hrs by safe_ids.
  destruct (uniqueIds_excludes_current (JNum 100) rs Hcur Hrs)
    as (Hnd & Hself & _).
  split; [exact Hnd|]. split; [exact Hself|]. vm_compute. reflexivity.
Defined.

(** C8 on a company with a name and a domain. *)
Lemma buildFilterGroups_spec_witness :
  buildFilterGroups acme = spec_query acme
  /\ length (buildFilterGroups acme) = 1%nat.
Proof.
  destruct (buildFilterGroups_spec acme) as (Heq & Hsome & _).
  { vm_compute. reflexivity. }
  split; [exact Heq|].
  destruct Hsome as [Hlen _]; [vm_compute; discriminate|].
  rewrite Hlen. vm_compute. reflexivity.
Defined.

(** C4 on a record already marked [merged]. *)
Lemma status_gate_witness :
  run (scripted (remote_ok acme_merged [])) {| objectId := JNum 200 |} tt
  = {| store := tt;
       calls := [ok (get_request {| objectId := JNum 200 |})];
       outputs := [out_already_merged {| objectId := JNum 200 |}];
       unhandled := [] |}.
Proof.
  destruct (status_gate (scripted (remote_ok acme_merged []))
              {| objectId := JNum 200 |} tt tt acme_merged eq_refl)
    as [Hmerged _].
  apply Hmerged. vm_compute. reflexivity.
Defined.

(** C5 on the scenario of the specification: record 200 matches record 100. *)
Lemma merge_into_primary_sequence_witness :
  let event := {| objectId := JNum 200 |} in
  let w := run (scripted (remote_ok acme [JStr "100"; JStr "200"])) event tt in
  request <$> calls w
  = [get_request event; ReqDoSearch (search_request acme);
     ReqUpdate (JNum 200) (status_update "merged");
     merge_request (JStr "100") (JNum 200);
     ReqUpdate (JStr "100") (status_update "primary")]
  /\ outputs w = [out_merged_into_primary event (JStr "100")].
Proof.
  intros event w.
  assert (properties acme !! DEDUPLICATION_STATUS_PROPERTY <> Some "merged")
    as Hstatus by (vm_compute; discriminate).
  assert (safe_id (objectId event)) as Hcur by safe_ids.
  assert (results_safe (results (results_of [JStr "100"; JStr "200"])))
    as Hrs by safe_ids.
  assert (primaryId (objectId event)
            (results (results_of [JStr "100"; JStr "200"]))
          <> objectId event) as Hother by (vm_compute; discriminate).
  destruct (merge_into_primary_sequence
              (scripted (remote_ok acme [JStr "100"; JStr "200"]))
              event tt tt tt acme
              (results_of [JStr "100"; JStr "200"])
              eq_refl Hstatus eq_refl eq_refl Hcur Hrs Hother)
    as (_ & _ & _ & Hrun).
  destruct (Hrun tt tt tt eq_refl eq_refl eq_refl) as [Hw _].
  unfold w. rewrite Hw. split; reflexivity.
Defined.


(** C7 on a record without a name. *)
Lemma no_identifying_value_marks_primary_witness :
  let event := {| objectId := JNum 100 |} in
  run (scripted (remote_ok nameless [JStr "200"])) event tt
  = {| store := tt;
       calls := [ok (get_request event);
                 ok (ReqUpdate (JNum 100) (status_update "primary"))];
       outputs := [out_marked_primary (JNum 100)];
       unhandled := [] |}.
Proof.
  intros event.
  assert (properties nameless !! DEDUPLICATION_STATUS_PROPERTY
          <> Some "merged") as Hstatus by (vm_compute; discriminate).
  destruct (no_identifying_value_marks_primary
              (scripted (remote_ok nameless [JStr "200"])) event tt tt nameless
              eq_refl Hstatus eq_refl)
    as (_ & Hrun & _).
  exact (Hrun tt eq_refl).
Defined.

(** C2 (as the code has it) on results in ascending order. *)
Lemma merged_duplicate_is_first_result_witness :
  let event := {| objectId := JNum 100 |} in
  let rs := results_of [JStr "100"; JStr "200"; JStr "300"] in
  nth 0 (matchingIds (JNum 100) (results rs)) JUndefined = JStr "200"
  /\ num_le (JStr "200") (JStr "300").
Proof.
  intros event rs.
  assert (properties acme !! DEDUPLICATION_STATUS_PROPERTY <> Some "merged")
    as Hstatus by (vm_compute; discriminate).
  assert (safe_id (objectId event)) as Hcur by safe_ids.
  assert (results_safe (results rs)) as Hrs by safe_ids.
  assert (uniqueIds (objectId event) (results rs) <> [])
    as Hsome by (vm_compute; discriminate).
  destruct (merged_duplicate_is_first_result
              (scripted (remote_ok acme [JStr "100"; JStr "200"; JStr "300"]))
              event tt tt tt acme rs
              eq_refl Hstatus eq_refl eq_refl Hcur Hrs Hsome eq_refl)
    as (_ & _ & _ & Hleast).
  split; [reflexivity|].
  apply Hleast.
  - repeat constructor; vm_compute; discriminate.
  - vm_compute. repeat constructor.
Defined.

(** C2, as stated, fails: the search returns 300 before 200, and 300 is the
    duplicate merged although 200 is a duplicate and numerically smaller. *)
Lemma merged_duplicate_not_least :
  let event := {| objectId := JNum 100 |} in
  let rs := results_of [JStr "300"; JStr "200"] in
  let w := run (scripted (remote_ok acme [JStr "300"; JStr "200"])) event tt in
  primaryId (JNum 100) (results rs) = JNum 100
  /\ uniqueIds (JNum 100) (results rs) = [JStr "300"; JStr "200"]
  /\ request <$> calls w
     = [get_request event; ReqDoSearch (search_request acme);
        ReqUpdate (JStr "300") (status_update "merged");
        merge_request (JNum 100) (JStr "300");
        ReqUpdate (JNum 100) (status_update "primary")]
  /\ Number (JStr "200") = Some 200
  /\ Number (JStr "300") = Some 300
  /\ ~ num_le (JStr "300") (JStr "200").
Proof.
  repeat split; try (vm_compute; reflexivity).
  vm_compute. intros H. by apply H.
Qed.


(** C1 (as the code has it) on a run in which the merge is denied. *)
Lemma failure_aborts_and_rethrows_witness :
  let event := {| objectId := JNum 200 |} in
  let w := run (scripted (remote_merge_denied acme [JStr "100"])) event tt in
  outputs w = [] /\ unhandled w = [permission_denied].
Proof.
  intros event w.
  destruct (failure_aborts_and_rethrows
              (scripted (remote_merge_denied acme [JStr "100"])) event tt)
    as [Hlast _].
  destruct (Hlast
              [ok (get_request event); ok (ReqDoSearch (search_request acme));
               ok (ReqUpdate (JNum 200) (status_update "merged"))]
              (failed (merge_request (JStr "100") (JNum 200))
                 permission_denied)
              [] permission_denied) as (_ & Hout & Hun);
    [vm_compute; reflexivity|reflexivity|].
  split; [exact Hout|exact Hun].
Defined.

(** C1, as stated, fails: the merge request is rejected with "Permission
    denied", the callback is never invoked, and so no payload carries the
    message in an [error] field. *)
Lemma merge_failure_reports_nothing :
  let event := {| objectId := JNum 200 |} in
  let w := run (scripted (remote_merge_denied acme [JStr "100"])) event tt in
  calls w
  = [ok (get_request event); ok (ReqDoSearch (search_request acme));
     ok (ReqUpdate (JNum 200) (status_update "merged"));
     failed (merge_request (JStr "100") (JNum 200)) permission_denied]
  /\ outputs w = []
  /\ unhandled w = [permission_denied]
  /\ ~ (exists o, o ∈ outputs w
                  /\ o !! "error" = Some (JStr (message permission_denied))).
Proof.
  repeat split; try (vm_compute; reflexivity).
  intros (o & Ho & _). vm_compute in Ho. by apply elem_of_nil in Ho.
Qed.

(** C10 on the updates of a successful merge. *)
Lemma status_updates_write_one_property_witness :
  Forall
    (fun call =>
       forall i input, request call = ReqUpdate i input ->
         dom (update_properties input)
         = ({[ DEDUPLICATION_STATUS_PROPERTY ]} : gset string))
    (calls (run (scripted (remote_ok acme [JStr "100"]))
              {| objectId := JNum 200 |} tt)).
Proof.
  destruct (status_updates_write_one_property
              (scripted (remote_ok acme [JStr "100"]))
              {| objectId := JNum 200 |} tt) as [Hall _].
  eapply Forall_impl; [exact Hall|].
  intros call H i input E. by destruct (H i input E).
Defined.

(** C7, as stated, fails in two ways: a record without a name that is
    already marked [merged] is not marked [primary], and when the update is
    rejected no identifier is reported. *)
Lemma no_identifying_value_not_always_marked :
  let event := {| objectId := JNum 100 |} in
  let w := run (scripted (remote_ok nameless_merged [])) event tt in
  let w' := run (scripted (remote_update_denied nameless [])) event tt in
  truthy (properties nameless_merged !! DEDUPE_PROPERTY) = false
  /\ calls w = [ok (get_request event)]
  /\ outputs w = [out_already_merged event]
  /\ truthy (properties nameless !! DEDUPE_PROPERTY) = false
  /\ calls w'
     = [ok (get_request event);
        failed (ReqUpdate (JNum 100) (status_update "primary"))
          permission_denied]
  /\ outputs w' = []
  /\ unhandled w' = [permission_denied].
Proof. repeat split; vm_compute; reflexivity. Qed.

(** X3 and X4 on record 200 merged into record 100. *)
Lemma merge_never_into_itself_witness :
  Forall
    (fun call =>
       forall p m, request call = merge_request p m ->
         (p = JNum 200 \/ m = JNum 200)
         /\ exists x y, Number p = Some x /\ Number m = Some y /\ x <> y)
    (calls (run (scripted (remote_ok acme [JStr "100"; JStr "200"]))
              {| objectId := JNum 200 |} tt)).
Proof.
  apply (merge_never_into_itself
           (scripted (remote_ok acme [JStr "100"; JStr "200"]))
           {| objectId := JNum 200 |} tt).
  - safe_ids.
  - intros req s1 s2 sr H. simpl in H. injection H as _ <-. safe_ids.
Defined.

Lemma merge_keeps_lowest_witness :
  Forall
    (fun call => forall p m, request call = merge_request p m -> num_lt p m)
    (calls (run (scripted (remote_ok acme [JStr "100"; JStr "200"]))
              {| objectId := JNum 200 |} tt)).
Proof.
  apply (merge_keeps_lowest
           (scripted (remote_ok acme [JStr "100"; JStr "200"]))
           {| objectId := JNum 200 |} tt).
  - exists 200. reflexivity.
  - intros req s1 s2 sr H. simpl in H. injection H as _ <-.
    repeat constructor; eexists; vm_compute; reflexivity.
Defined.

(** X5 on a current record older than its two duplicates. *)
Lemma current_primary_iff_least_witness :
  strict_eq
    (primaryId (JNum 100) (results (results_of [JStr "300"; JStr "200"])))
    (JNum 100) = true
  /\ num_lt (JNum 100) (JStr "200").
Proof.
  assert (numeric (JNum 100)) as Hcur by (exists 100; reflexivity).
  assert (results_numeric (results (results_of [JStr "300"; JStr "200"])))
    as Hrs by (repeat constructor; eexists; vm_compute; reflexivity).
  destruct (current_primary_iff_least (JNum 100)
              (results (results_of [JStr "300"; JStr "200"])) Hcur Hrs)
    as [Hleast _].
  split; [reflexivity|].
  apply Hleast; [reflexivity|]. vm_compute. repeat constructor.
Defined.

(** X8 on the identifiers of the specification's example. *)
Lemma allCompanyIds_sorted_witness :
  StronglySorted num_le
    (allCompanyIds (JNum 24273)
       (results (results_of [JStr "92526"; JStr "73493"; JStr "60888"]))).
Proof.
  assert (safe_id (JNum 24273)) as Hcur by safe_ids.
  assert (results_safe
            (results (results_of [JStr "92526"; JStr "73493"; JStr "60888"])))
    as Hrs by safe_ids.
  by destruct (allCompanyIds_sorted (JNum 24273)
                 (results (results_of [JStr "92526"; JStr "73493";
                                       JStr "60888"])) Hcur Hrs)
    as (_ & _ & Hsorted & _).
Defined.

(** X10 on the first write of a successful merge. *)
Lemma writes_follow_successful_reads_witness :
  Forall succeeded
    [ok (get_request {| objectId := JNum 200 |});
     ok (ReqDoSearch (search_request acme))].
Proof.
  destruct (writes_follow_successful_reads
              (scripted (remote_ok acme [JStr "100"]))
              {| objectId := JNum 200 |} tt
              [ok (get_request {| objectId := JNum 200 |});
               ok (ReqDoSearch (search_request acme))]
              (ok (ReqUpdate (JNum 200) (status_update "merged")))
              [ok (merge_request (JStr "100") (JNum 200));
               ok (ReqUpdate (JStr "100") (status_update "primary"))]
              (JNum 200)) as [Hok _]; [vm_compute; reflexivity|reflexivity|].
  exact Hok.
Defined.

(** X12 on an enrolled record with one match: one merge request follows
    the search. *)
Lemma v3_protocol_witness :
  V3.request
  <$> V3.calls (V3.run (V3.scripted (remote_ok acme [JStr "100"; JStr "200"]))
                  {| objectId := JNum 200 |} tt)
  = [V3.get_request {| objectId := JNum 200 |};
     V3.ReqDoSearch (V3.search_request acme);
     V3.merge_request (JStr "100") (JNum 200)].
Proof.
  destruct (v3_protocol
              (V3.scripted (remote_ok acme [JStr "100"; JStr "200"]))
              {| objectId := JNum 200 |} tt) as [_ Hfetched].
  destruct (Hfetched tt acme eq_refl) as (_ & _ & _ & Hfound).
  assert (safe_id (JNum 200)) as Hcur by safe_ids.
  assert (results_safe (results (results_of [JStr "100"; JStr "200"])))
    as Hrs by safe_ids.
  destruct (Hfound tt (results_of [JStr "100"; JStr "200"]) eq_refl Hcur Hrs)
    as [_ Hmerge].
  destruct Hmerge as (Hreq & _); [vm_compute; discriminate|].
  exact Hreq.
Defined.

(** X13 on an enrolled record older than its two matches: record 100 is
    merged into record 200. *)
Lemma v3_merges_into_lowest_match_witness :
  exists p,
    V3.request
    <$> V3.calls (V3.run (V3.scripted (remote_ok acme [JStr "300"; JStr "200"]))
                    {| objectId := JNum 100 |} tt)
    = [V3.get_request {| objectId := JNum 100 |};
       V3.ReqDoSearch (V3.search_request acme);
       V3.merge_request p (JNum 100)]
    /\ p = JStr "200".
Proof.
  assert (safe_id (JNum 100)) as Hcur by safe_ids.
  assert (results_safe (results (results_of [JStr "300"; JStr "200"])))
    as Hrs by safe_ids.
  assert (matchingIds (JNum 100)
            (results (results_of [JStr "300"; JStr "200"])) <> [])
    as Hsome by (vm_compute; discriminate).
  destruct (v3_merges_into_lowest_match
              (V3.scripted (remote_ok acme [JStr "300"; JStr "200"]))
              {| objectId := JNum 100 |} tt tt tt acme
              (results_of [JStr "300"; JStr "200"])
              eq_refl eq_refl Hcur Hrs Hsome)
    as (p & Hreq & _ & _ & _).
  exists p. split; [exact Hreq|].
  vm_compute in Hreq. by injection Hreq as <-.
Defined.
